(** * Qutrit calibration: a shallow embedding of the analysis selector,
      the parameter formatting, the amplitude and anharmonicity updaters,
      the store construction, the EF randomized-benchmarking circuits, the
      amplitude and DRAG sweeps and the guesses of the two-peak fit.

    Python floats are IEEE-754 binary64 numbers; they are embedded as Rocq's
    primitive floats, whose operations are the same correctly rounded ones.
    Python exceptions are embedded as values of [PyExc] carried by the
    [Raise] branch of [PyResult]. *)

From Stdlib Require Import ZArith QArith Floats Lia Bool.
From stdpp Require Import base option strings list gmap pretty.

Set Warnings "-inexact-float".
Local Open Scope Z_scope.

(** ** Python results *)

Inductive PyExc : Type :=
| ValueError (msg : string)
| KeyError (msg : string)
| IndexError (msg : string)
| RuntimeError (msg : string)
| InvalidOperation (msg : string)
| CalibrationError (msg : string)
| ExperimentEntryNotFound (msg : string).

Inductive PyResult (A : Type) : Type :=
| Return (a : A)
| Raise (e : PyExc).
Arguments Return {A} a.
Arguments Raise {A} e.

#[global] Instance PyResult_ret : MRet PyResult := @Return.
#[global] Instance PyResult_bind : MBind PyResult := fun A B k r =>
  match r with
  | Return a => k a
  | Raise e => Raise e
  end.

(** Whether a specification float is the NaN. *)
Definition sf_nan (a : spec_float) : bool :=
  match a with S754_nan => true | _ => false end.
(** ** framework/multi_analyses.py: [MultipleCurveAnalysis] *)

Module MultiAnalyses.

(** The object stored as [value] of a result entry; the attribute [chisq]
    may be missing, in which case reading it raises [AttributeError]. *)
Record FitValue : Type := { chisq : option float }.

Record AnalysisResultData : Type := { name : string; value : FitValue }.

(** *** numpy's [nanargmin] on a one-dimensional float64 array

    [nanargmin] replaces every NaN by +infinity, raises [ValueError] when
    every entry was NaN, and otherwise returns [argmin] of the result: the
    first index at which the least value occurs. *)

Definition replace_nan (x : float) : float :=
  if is_nan x then infinity else x.

Fixpoint argmin_from (best_i : nat) (best : float) (i : nat) (xs : list float)
  : nat :=
  match xs with
  | [] => best_i
  | x :: rest =>
      if (x <? best)%float then argmin_from i x (S i) rest
      else argmin_from best_i best (S i) rest
  end.

Definition argmin (a : list float) : PyResult nat :=
  match a with
  | [] => Raise (ValueError "attempt to get argmin of an empty sequence")
  | x :: rest => Return (argmin_from 0 x 1 rest)
  end.

Definition nanargmin (a : list float) : PyResult nat :=
  if negb (Nat.eqb (length a) 0) && forallb is_nan a
  then Raise (ValueError "All-NaN slice encountered")
  else argmin (map replace_nan a).

(** [v] is the least value of [l], first met at index [k]. *)
Definition first_min (l : list float) (k : nat) (v : float) : Prop :=
  l !! k = Some v /\
  (forall j y, l !! j = Some y -> (v <=? y)%float = true) /\
  (forall j y, (j < k)%nat -> l !! j = Some y -> (v <? y)%float = true).

Section Selector.

(** [PARAMS_ENTRY_PREFIX] is imported from qiskit_experiments; the types of
    the experiment data and of the figures are opaque to the selector. *)
Variable PARAMS_ENTRY_PREFIX : string.
Context {ExperimentData Figure : Type}.

(** A candidate analysis: its [_run_analysis] on a dataset either raises an
    [Exception] or returns result entries and figures. *)
Definition Analysis : Type :=
  ExperimentData -> PyResult (list AnalysisResultData * list Figure).

(** The inner [for res in results: ... break ... else: continue] loop:
    [None] is the [else] branch (no entry carries the prefix). *)
Fixpoint first_params_chisq (results : list AnalysisResultData) : option float :=
  match results with
  | [] => None
  | res :: rest =>
      if String.prefix PARAMS_ENTRY_PREFIX (name res)
      then Some (match chisq (value res) with
                 | Some c => c
                 | None => nan
                 end)
      else first_params_chisq rest
  end.

Record Collected : Type := {
  all_results : list (list AnalysisResultData);
  all_figures : list (list Figure);
  chisqs : list float
}.

Definition collect_one (experiment_data : ExperimentData)
  (acc : Collected) (analysis : Analysis) : Collected :=
  match analysis experiment_data with
  | Raise _ => acc
  | Return (results, figures) =>
      match first_params_chisq results with
      | None => acc
      | Some c =>
          {| all_results := all_results acc ++ [results];
             all_figures := all_figures acc ++ [figures];
             chisqs := chisqs acc ++ [c] |}
      end
  end.

Definition collect (analyses : list Analysis) (experiment_data : ExperimentData)
  : Collected :=
  fold_left (collect_one experiment_data) analyses
    {| all_results := []; all_figures := []; chisqs := [] |}.

Definition _run_analysis (analyses : list Analysis)
  (experiment_data : ExperimentData)
  : PyResult (list AnalysisResultData * list Figure) :=
  let acc := collect analyses experiment_data in
  match chisqs acc with
  | [] => Return ([], [])
  | _ :: _ =>
      best_analysis_index ← nanargmin (chisqs acc);
      match all_results acc !! best_analysis_index,
            all_figures acc !! best_analysis_index with
      | Some results, Some figures => Return (results, figures)
      | _, _ => Raise (IndexError "list index out of range")
      end
  end.

(** The candidates that reach the three [append] calls, in declaration
    order, each with the chi-square recorded for it. *)
Definition survivor (experiment_data : ExperimentData) (analysis : Analysis)
  : option (list AnalysisResultData * list Figure * float) :=
  match analysis experiment_data with
  | Raise _ => None
  | Return (results, figures) =>
      match first_params_chisq results with
      | None => None
      | Some c => Some (results, figures, c)
      end
  end.

Definition survivors (analyses : list Analysis) (experiment_data : ExperimentData)
  : list (list AnalysisResultData * list Figure * float) :=
  omap (survivor experiment_data) analyses.

End Selector.

(** *** Candidates used in the examples

    The prefix is the value qiskit_experiments gives [PARAMS_ENTRY_PREFIX];
    a dataset is [tt] and a figure is referred to by its title. *)

Definition qiskit_PARAMS_ENTRY_PREFIX : string := "@Parameters_".

Definition fit_entry (analysis_name : string) (c : option float)
  : AnalysisResultData :=
  {| name := "@Parameters_" ++ analysis_name; value := {| chisq := c |} |}.

Definition plain_entry (entry_name : string) : AnalysisResultData :=
  {| name := entry_name; value := {| chisq := None |} |}.

Definition single_peak_results : list AnalysisResultData :=
  [fit_entry "GaussianAnalysis" (Some 0.02%float); plain_entry "f12"].

Definition single_peak : @Analysis unit string :=
  fun _ => Return (single_peak_results, ["single peak"]).

Definition failing_fit : @Analysis unit string :=
  fun _ => Raise (ValueError "array must not contain infs or NaNs").

Definition no_fit_entry : @Analysis unit string :=
  fun _ => Return ([plain_entry "f12"], ["no fit"]).

Definition missing_chisq_results : list AnalysisResultData :=
  [fit_entry "GaussianAnalysis" None].

Definition missing_chisq : @Analysis unit string :=
  fun _ => Return (missing_chisq_results, ["single peak"]).

Definition infinite_chisq_results : list AnalysisResultData :=
  [fit_entry "DoubleGaussianAnalysis" (Some infinity)].

Definition infinite_chisq : @Analysis unit string :=
  fun _ => Return (infinite_chisq_results, ["double peak"]).

End MultiAnalyses.

(** ** library/ef_standard_rb.py: EF randomized benchmarking *)

Module EFStandardRB.

(** The operations of qiskit's [Clifford] objects that the generator uses.
    [compose a b] is [a.compose(b)]: [a] acts first, then [b]. Equality of
    [Clifford] objects is equality of stabilizer tableaux, which identifies
    unitaries that differ by a global phase. *)
Class CliffordOps (G : Type) : Type := {
  identity : G;
  compose : G -> G -> G;
  adjoint : G -> G
}.

Class CliffordLaws (G : Type) `{CliffordOps G} : Prop := {
  compose_assoc : forall a b c : G, compose (compose a b) c = compose a (compose b c);
  compose_identity_l : forall a : G, compose identity a = a;
  compose_identity_r : forall a : G, compose a identity = a;
  compose_adjoint_r : forall a : G, compose a (adjoint a) = identity
}.

Section Generator.

Context {G Rng Params : Type} `{CliffordOps G}.

(** [random_clifford 1 rng] draws an element and advances the generator;
    [_to_parameters] is the float computation of the three Euler angles. *)
Variable random_clifford : Rng -> G * Rng.
Variable _to_parameters : G -> Params.

(** The [for _ in range(length)] loop: what is yielded, the running total
    and the generator state when the loop ends. *)
Fixpoint sample_loop (n : nat) (composed : G) (rng : Rng)
  : list Params * G * Rng :=
  match n with
  | O => ([], composed, rng)
  | S n' =>
      let (elm, rng') := random_clifford rng in
      let composed' := compose composed elm in
      let '(yielded, total, rng'') := sample_loop n' composed' rng' in
      (_to_parameters elm :: yielded, total, rng'')
  end.

(** Everything the generator yields when it is run to exhaustion, and the
    state it leaves the shared [rng] in. *)
Definition _generate_sequence (length : Z) (rng : Rng) : list Params * Rng :=
  let '(yielded, composed, rng') := sample_loop (Z.to_nat length) identity rng in
  if 0 <? length
  then (yielded ++ [_to_parameters (adjoint composed)], rng')
  else (yielded, rng').

(** The elements drawn by [n] successive calls of [random_clifford]. *)
Fixpoint sampled (n : nat) (rng : Rng) : list G :=
  match n with
  | O => []
  | S n' => let (elm, rng') := random_clifford rng in elm :: sampled n' rng'
  end.

(** Left-to-right composition of a list of elements. *)
Definition compose_all (elms : list G) : G := fold_left compose elms identity.

End Generator.

(** *** [BaseEFRB1Q.set_transpile_options] *)

Inductive RBClass : Type := EFStandardRB1Q | EFPolarRB1Q.

Definition class_name (c : RBClass) : string :=
  match c with
  | EFStandardRB1Q => "EFStandardRB1Q"
  | EFPolarRB1Q => "EFPolarRB1Q"
  end.

Record ExperimentOptions : Type := {
  lengths : option (list Z);
  min_length : Z;
  max_length : Z;
  num_length : Z;
  num_samples : Z;
  seed : Z
}.

(** The state of an experiment object that the option setters act on. *)
Record Experiment : Type := {
  exp_class : RBClass;
  physical_qubits : list Z;
  experiment_options : ExperimentOptions;
  transpile_options : list (string * string)
}.

(** A method call returns or raises, and leaves the object in a state. *)
Definition set_transpile_options (self : Experiment)
  (fields : list (string * string)) : PyResult unit * Experiment :=
  (Raise (RuntimeError
            (class_name (exp_class self) ++ " doesn't relay on Qiskit transpiler.")),
   self).

(** *** The single-qubit Clifford group, up to global phase

    A Clifford element is given by the signed Pauli axes onto which it maps
    X and Z under conjugation. [img_x] is the axis X is sent to, [neg_x] its
    sign; Z is sent to the axis after [img_x] in the cycle X, Y, Z when
    [z_next] holds and to the one before it otherwise, with sign [neg_z]. *)

Inductive Axis : Type := AX | AY | AZ.

Definition next_axis (a : Axis) : Axis :=
  match a with AX => AY | AY => AZ | AZ => AX end.

Definition axis_eqb (a b : Axis) : bool :=
  match a, b with
  | AX, AX | AY, AY | AZ, AZ => true
  | _, _ => false
  end.

Record Clifford1 : Type := {
  img_x : Axis; neg_x : bool; z_next : bool; neg_z : bool
}.

Definition img_z (c : Clifford1) : Axis :=
  if z_next c then next_axis (img_x c) else next_axis (next_axis (img_x c)).

(** Sign of [i * P * Q] written as a signed third axis, e.g. [i X Z = Y]. *)
Definition cross_neg (p q : Axis) : bool :=
  match p, q with
  | AX, AZ | AY, AX | AZ, AY => false
  | _, _ => true
  end.

Definition third_axis (p q : Axis) : Axis :=
  match p, q with
  | AX, AY | AY, AX => AZ
  | AX, AZ | AZ, AX => AY
  | _, _ => AX
  end.

(** Conjugation of a Pauli axis: the axis reached and whether it is negated. *)
Definition conj (c : Clifford1) (p : Axis) : Axis * bool :=
  match p with
  | AX => (img_x c, neg_x c)
  | AZ => (img_z c, neg_z c)
  | AY => (third_axis (img_x c) (img_z c),
           xorb (xorb (neg_x c) (neg_z c)) (cross_neg (img_x c) (img_z c)))
  end.

Definition of_images (x z : Axis * bool) : Clifford1 :=
  {| img_x := fst x; neg_x := snd x;
     z_next := axis_eqb (fst z) (next_axis (fst x)); neg_z := snd z |}.

Definition conj_signed (c : Clifford1) (p : Axis * bool) : Axis * bool :=
  let (q, s) := conj c (fst p) in (q, xorb s (snd p)).

Definition preimage (c : Clifford1) (q : Axis) : Axis * bool :=
  if axis_eqb (fst (conj c AX)) q then (AX, snd (conj c AX))
  else if axis_eqb (fst (conj c AY)) q then (AY, snd (conj c AY))
  else (AZ, snd (conj c AZ)).

#[global] Instance Clifford1_ops : CliffordOps Clifford1 := {
  identity := {| img_x := AX; neg_x := false; z_next := false; neg_z := false |};
  compose a b := of_images (conj_signed b (conj a AX)) (conj_signed b (conj a AZ));
  adjoint a := of_images (preimage a AX) (preimage a AZ)
}.

(** The Hadamard and phase gates generate the group. *)
Definition clifford_H : Clifford1 :=
  {| img_x := AZ; neg_x := false; z_next := true; neg_z := false |}.
Definition clifford_S : Clifford1 :=
  {| img_x := AY; neg_x := false; z_next := true; neg_z := false |}.

(** A small linear congruential generator standing for numpy's [Generator]:
    the state is a natural number and the element drawn is read off it. *)
Definition lcg_next (rng : N) : N := ((1103515245 * rng + 12345) mod 2147483648)%N.

Definition clifford_of_N (k : N) : Clifford1 :=
  {| img_x := match (k mod 3)%N with 0%N => AX | 1%N => AY | _ => AZ end;
     neg_x := N.odd (k / 3);
     z_next := N.odd (k / 6);
     neg_z := N.odd (k / 12) |}.

Definition lcg_random_clifford (rng : N) : Clifford1 * N :=
  let rng' := lcg_next rng in (clifford_of_N (rng' / 65536), rng').

End EFStandardRB.

(** ** library/ef_standard_rb.py: the circuits of both experiments *)

Module EFRBCircuits.
Import EFStandardRB.

Definition math_pi : float := 3.141592653589793%float.

(** What is appended to a benchmarking circuit. *)
Inductive Instruction : Type :=
| XGate
| SX12Gate
| X12Gate
| RZ12Gate (phi : float)
| Barrier
| Measure.

Definition is_SX12 (i : Instruction) : bool :=
  match i with SX12Gate => true | _ => false end.
Definition is_X12 (i : Instruction) : bool :=
  match i with X12Gate => true | _ => false end.
Definition is_RZ12 (i : Instruction) : bool :=
  match i with RZ12Gate _ => true | _ => false end.
Definition is_Barrier (i : Instruction) : bool :=
  match i with Barrier => true | _ => false end.

Definition count (p : Instruction -> bool) (l : list Instruction) : nat :=
  length (List.filter p l).

Record Circuit : Type := {
  xval : Z;
  sample : nat;
  data : list Instruction
}.

(** [EFStandardRB1Q._sequence_to_instructions]. *)
Definition standard_sequence_to_instructions (params : float * float * float)
  : list Instruction :=
  let '(theta, phi, lam) := params in
  [RZ12Gate lam; SX12Gate; RZ12Gate (theta + math_pi)%float; SX12Gate;
   RZ12Gate (phi - math_pi)%float].

(** [EFPolarRB1Q._sequence_to_instructions]. *)
Definition polar_sequence_to_instructions (params : float * float)
  : list Instruction :=
  let '(angle1, angle2) := params in
  [RZ12Gate angle1; X12Gate; RZ12Gate (angle2 - angle1)%float; X12Gate;
   RZ12Gate (- angle2)%float].

Section Polar.

Context {Rng : Type}.

(** [rng.uniform(-np.pi, np.pi, 2)]: two angles and the advanced generator. *)
Variable uniform2 : Rng -> (float * float) * Rng.

(** [EFPolarRB1Q._generate_sequence], run to exhaustion. *)
Fixpoint polar_loop (n : nat) (rng : Rng) : list (float * float) * Rng :=
  match n with
  | O => ([], rng)
  | S n' =>
      let (angles, rng') := uniform2 rng in
      let (yielded, rng'') := polar_loop n' rng' in
      (angles :: yielded, rng'')
  end.

Definition polar_generate_sequence (length : Z) (rng : Rng)
  : list (float * float) * Rng :=
  polar_loop (Z.to_nat length) rng.

End Polar.

Section Circuits.

(** The two hooks a subclass provides, and the state of the generator. *)
Context {Rng Params : Type}.
Variable _generate_sequence : Z -> Rng -> list Params * Rng.
Variable _sequence_to_instructions : Params -> list Instruction.

(** The body of the inner loop of [circuits]: one circuit for one length. *)
Definition build_circuit (sample_ind : nat) (length : Z) (rng : Rng)
  : Circuit * Rng :=
  let (sequence, rng') := _generate_sequence length rng in
  ({| xval := length;
      sample := sample_ind;
      data := [XGate] ++
              flat_map (fun params => _sequence_to_instructions params ++ [Barrier])
                       sequence ++
              [XGate; Measure] |},
   rng').

(** [for length in lengths]. *)
Fixpoint circuits_of_sample (sample_ind : nat) (lengths : list Z) (rng : Rng)
  : list Circuit * Rng :=
  match lengths with
  | [] => ([], rng)
  | length :: rest =>
      let (circ, rng') := build_circuit sample_ind length rng in
      let (circs, rng'') := circuits_of_sample sample_ind rest rng' in
      (circ :: circs, rng'')
  end.

(** [for sample_ind in range(opt.num_samples)]. *)
Fixpoint circuits_of_samples (sample_inds : list nat) (lengths : list Z) (rng : Rng)
  : list Circuit * Rng :=
  match sample_inds with
  | [] => ([], rng)
  | sample_ind :: rest =>
      let (circs, rng') := circuits_of_sample sample_ind lengths rng in
      let (more, rng'') := circuits_of_samples rest lengths rng' in
      (circs ++ more, rng'')
  end.

(** [np.random.default_rng(seed=...)] and
    [np.linspace(min, max, num, dtype=int)] are numpy's. *)
Variable default_rng : Z -> Rng.
Variable linspace_int : Z -> Z -> Z -> list Z.

Definition circuits (opt : ExperimentOptions) : list Circuit :=
  let rng := default_rng (seed opt) in
  let lengths :=
    match lengths opt with
    | None => linspace_int (min_length opt) (max_length opt) (num_length opt)
    | Some given => given
    end in
  fst (circuits_of_samples (seq 0 (Z.to_nat (num_samples opt))) lengths rng).

End Circuits.

(** The state of the generator after [n] draws of [random_clifford]. *)
Fixpoint advance {G Rng : Type} (random_clifford : Rng -> G * Rng)
  (n : nat) (rng : Rng) : Rng :=
  match n with
  | O => rng
  | S n' => advance random_clifford n' (snd (random_clifford rng))
  end.

(** A stand-in for the float computation of the Euler angles, used in the
    examples: it only tells the elements apart. *)
Definition example_parameters (g : Clifford1) : float * float * float :=
  ((if neg_x g then 1 else 0)%float,
   (if z_next g then 1 else 0)%float,
   (if neg_z g then 1 else 0)%float).

Definition example_uniform2 (rng : N) : (float * float) * N :=
  let rng' := lcg_next rng in
  (((if N.odd (rng' / 65536) then 1.5 else -1.5)%float,
    (if N.odd (rng' / 131072) then 0.25 else -2.75)%float), rng').

Definition example_options : ExperimentOptions :=
  {| lengths := Some [1; 3; 5]; min_length := 1; max_length := 100;
     num_length := 15; num_samples := 2; seed := 123 |}.

(** The two experiments with the stand-ins plugged in. *)
Definition example_standard_circuits : list Circuit :=
  circuits (_generate_sequence lcg_random_clifford example_parameters)
    standard_sequence_to_instructions Z.to_N (fun _ _ _ => []) example_options.

Definition example_polar_circuits : list Circuit :=
  circuits (polar_generate_sequence example_uniform2)
    polar_sequence_to_instructions Z.to_N (fun _ _ _ => []) example_options.

End EFRBCircuits.

(** ** framework/calibrations.py: [QutritCalibrations] *)

Module Calibrations.

Inductive Channel : Type :=
| DriveChannel (index : Z)
| ControlChannel (index : Z)
| MeasureChannel (index : Z)
| AcquireChannel (index : Z).

Definition is_ControlChannel (c : Channel) : bool :=
  match c with ControlChannel _ => true | _ => false end.

Record Instruction : Type := { inst_name : string; channels : list Channel }.

(** A schedule: its name and its timed instructions. *)
Record Schedule : Type := {
  sched_name : string;
  instructions : list (Z * Instruction)
}.

(** What [BackendData] and the backend's default instruction schedule map
    expose: the number of qubits, the rows of the coupling map, the control
    channels of a qubit pair (an empty list when there is none) and the
    default schedules. *)
Record Backend : Type := {
  num_qubits : nat;
  coupling_map : list (Z * Z);
  control_channel : Z * Z -> list Channel;
  backend_inst_map : gmap (string * list Z) Schedule
}.

(** The part of a calibrations object that [from_backend] and
    [complete_inst_map] read and write. *)
Record QutritCalibrations : Type := {
  _control_channel_map : gmap (list Z) (list Channel);
  blacklist : list Z;
  _inst_map : gmap (string * list Z) Schedule
}.

(** State of the first loop of [from_backend]. *)
Record ChannelScan : Type := {
  scan_map : gmap (list Z) (list Channel);
  scan_blacklist : list Z;
  scan_warnings : list string
}.

Definition Z_to_string (z : Z) : string := pretty z.

Definition warning_message (qubit : Z) : string :=
  "ControlChannel for qubit" +:+ Z_to_string qubit +:+
  " does not exist. This qubit cannot be used.".

(** One turn of [for qubit in range(backend_data.num_qubits)]. Selecting the
    rows of an empty coupling map is an [IndexError] raised outside the
    [try]; indexing an empty selection, or an empty channel list, is the
    [IndexError] that the [except] clause turns into a blacklist entry. *)
Definition scan_qubit (backend : Backend) (st : ChannelScan) (qubit : Z)
  : PyResult ChannelScan :=
  match coupling_map backend with
  | [] => Raise (IndexError "too many indices for array")
  | _ :: _ =>
      let available_cmap :=
        filter (fun row => fst row = qubit) (coupling_map backend) in
      match available_cmap with
      | row :: _ =>
          match control_channel backend row with
          | channel :: _ =>
              Return {| scan_map := <[ [qubit] := [channel] ]> (scan_map st);
                        scan_blacklist := scan_blacklist st;
                        scan_warnings := scan_warnings st |}
          | [] =>
              Return {| scan_map := scan_map st;
                        scan_blacklist := scan_blacklist st ++ [qubit];
                        scan_warnings := scan_warnings st ++
                          [warning_message qubit] |}
          end
      | [] =>
          Return {| scan_map := scan_map st;
                    scan_blacklist := scan_blacklist st ++ [qubit];
                    scan_warnings := scan_warnings st ++
                      [warning_message qubit] |}
      end
  end.

(** A [for] loop whose body may raise. *)
Fixpoint for_each {S A : Type} (body : S -> A -> PyResult S) (xs : list A) (st : S)
  : PyResult S :=
  match xs with
  | [] => Return st
  | x :: rest => st' ← body st x; for_each body rest st'
  end.

Definition range (n : nat) : list Z := map Z.of_nat (seq 0 n).

Definition scan_channels (backend : Backend) : PyResult ChannelScan :=
  for_each (scan_qubit backend) (range (num_qubits backend))
    {| scan_map := ∅; scan_blacklist := []; scan_warnings := [] |}.

(** What the scan has established once the qubits [done] are processed:
    blacklisted qubits are processed qubits without an entry, and only
    processed qubits have an entry. *)
Definition scanned (done : list Z) (st : ChannelScan) : Prop :=
  (forall q, q ∈ scan_blacklist st -> q ∈ done /\ scan_map st !! [q] = None) /\
  (forall q, is_Some (scan_map st !! [q]) -> q ∈ done).

(** [complete_inst_map], first loop: copy the backend's schedule of [gate]
    on [qubit], leaving out instructions that touch a control channel. *)
Definition copy_gate (backend : Backend) (qubit : Z)
  (self : QutritCalibrations) (gate : string) : PyResult QutritCalibrations :=
  match backend_inst_map backend !! (gate, [qubit]) with
  | None => Return self
  | Some temp_schedule =>
      let sched_insts :=
        filter (fun ti => forallb (fun c => negb (is_ControlChannel c))
                            (channels (snd ti)) = true)
               (instructions temp_schedule) in
      Return {| _control_channel_map := _control_channel_map self;
                blacklist := blacklist self;
                _inst_map := <[ (gate, [qubit]) :=
                                {| sched_name := gate; instructions := sched_insts |} ]>
                             (_inst_map self) |}
  end.

(** Second loop: the [rz12] schedule is a phase shift on the qutrit channel.
    [self._control_channel_map[(qubit, )]] raises [KeyError] on a missing
    key, and [[0]] raises [IndexError] on an empty list. *)
Definition add_rz12 (self : QutritCalibrations) (qubit : Z)
  : PyResult QutritCalibrations :=
  match _control_channel_map self !! [qubit] with
  | None => Raise (KeyError ("(" +:+ Z_to_string qubit +:+ ",)"))
  | Some [] => Raise (IndexError "list index out of range")
  | Some (qutrit_chan :: _) =>
      Return {| _control_channel_map := _control_channel_map self;
                blacklist := blacklist self;
                _inst_map := <[ ("rz12", [qubit]) :=
                                {| sched_name := "rz12";
                                   instructions :=
                                     [(0, {| inst_name := "ShiftPhase";
                                             channels := [qutrit_chan] |})] |} ]>
                             (_inst_map self) |}
  end.

Definition default_gates_to_add : list string := ["x"; "sx"; "rz"; "rz12"].

Definition complete_inst_map (self : QutritCalibrations) (backend : Backend)
  (gates_to_add : list string) : PyResult QutritCalibrations :=
  self' ← for_each
            (fun s qubit => for_each (copy_gate backend qubit) gates_to_add s)
            (range (num_qubits backend)) self;
  if bool_decide ("rz12" ∈ gates_to_add)
  then for_each add_rz12 (range (num_qubits backend)) self'
  else Return self'.

(** [from_backend]: the channel scan, the constructor call that stores the
    map, the blacklist assignment, and [complete_inst_map] with its default
    gates. Registering parameters and adding default values do not touch
    the fields modelled here. The warnings issued are returned alongside. *)
Definition from_backend (backend : Backend)
  : PyResult QutritCalibrations * list string :=
  match scan_channels backend with
  | Raise e => (Raise e, [])
  | Return st =>
      let cals := {| _control_channel_map := scan_map st;
                     blacklist := scan_blacklist st;
                     _inst_map := ∅ |} in
      (complete_inst_map cals backend default_gates_to_add, scan_warnings st)
  end.

(** A two-qubit backend whose coupling map has the single row [0, 1]. *)
Definition one_way_backend : Backend :=
  {| num_qubits := 2;
     coupling_map := [(0, 1)];
     control_channel := fun pair =>
       if bool_decide (pair = (0, 1)) then [ControlChannel 0] else [];
     backend_inst_map := ∅ |}.

(** The same backend with both directions in the coupling map. *)
Definition two_way_backend : Backend :=
  {| num_qubits := 2;
     coupling_map := [(0, 1); (1, 0)];
     control_channel := fun pair =>
       if bool_decide (pair = (0, 1)) then [ControlChannel 0]
       else if bool_decide (pair = (1, 0)) then [ControlChannel 1] else [];
     backend_inst_map := ∅ |}.

End Calibrations.

(** ** framework/calibrations.py: [qutrit_channel] and schedule contents *)

Module CalibrationsMore.
Import Calibrations.




(** What the scan guarantees for the processed qubits [done]: each one is
    blacklisted or has a one-channel entry, and one warning was issued per
    blacklisted qubit, in order. *)
Definition covered (done : list Z) (st : ChannelScan) : Prop :=
  (forall q, q ∈ done ->
     q ∈ scan_blacklist st \/ exists ch, scan_map st !! [q] = Some [ch]) /\
  scan_warnings st = map warning_message (scan_blacklist st).






(** What the scan of [one_way_backend] ends with. *)
Definition one_way_scan : ChannelScan :=
  {| scan_map := {[ [0] := [ControlChannel 0] ]};
     scan_blacklist := [1];
     scan_warnings := [warning_message 1] |}.

(** A backend with three qubits and no coupling at all. *)
Definition uncoupled_backend : Backend :=
  {| num_qubits := 3;
     coupling_map := [];
     control_channel := fun _ => [];
     backend_inst_map := ∅ |}.

End CalibrationsMore.

(** ** library/ef_fine_amp.py: fine amplitude calibration *)

Module FineAmp.

(** *** The calibration store

    Modelled from the spec: the parameter store of qiskit_experiments
    ([Calibrations.get_parameter_value], [BaseUpdater.add_parameter_value],
    [BaseUpdater.get_value]) is not part of the repository sources. A key is
    a parameter name, a qubit tuple and an optional schedule name; a key's
    history is append-only; the current value is the valid entry with the
    latest time stamp, the later insertion winning a tie. *)

Record ParameterValue : Type := {
  pv_value : float;
  date_time : Z;
  valid : bool;
  exp_id : string
}.

Definition ParameterKey : Type := string * list Z * option string.

Abbreviation Store := (gmap ParameterKey (list ParameterValue)).

Definition latest (best : option ParameterValue) (pv : ParameterValue)
  : option ParameterValue :=
  if valid pv then
    match best with
    | Some b => if date_time b <=? date_time pv then Some pv else Some b
    | None => Some pv
    end
  else best.

Definition get_parameter_value (cals : Store) (param : string)
  (qubits : list Z) (schedule : option string) : PyResult float :=
  match fold_left latest (default [] (cals !! (param, qubits, schedule))) None with
  | Some pv => Return (pv_value pv)
  | None => Raise (CalibrationError ("No valid value for " +:+ param))
  end.

Definition add_value (cals : Store) (key : ParameterKey) (pv : ParameterValue)
  : Store :=
  <[ key := default [] (cals !! key) ++ [pv] ]> cals.

(** The experiment data an updater reads: the analysis results by name (the
    nominal value of each), and the provenance written into the new entry. *)
Record ExperimentData : Type := {
  analysis_results : list (string * float);
  metadata_physical_qubits : list Z;
  time_stamp : Z;
  experiment_id : string
}.

(** [BaseUpdater.get_value(exp_data, name, -1)]: the last result of that name. *)
Definition get_value (exp_data : ExperimentData) (param_name : string)
  : PyResult float :=
  match reverse (filter (fun r => fst r = param_name) (analysis_results exp_data)) with
  | r :: _ => Return (snd r)
  | [] => Raise (ExperimentEntryNotFound param_name)
  end.

Definition add_parameter_value (cal : Store) (exp_data : ExperimentData)
  (value : float) (param : string) (schedule : string) : Store :=
  add_value cal (param, metadata_physical_qubits exp_data, Some schedule)
    {| pv_value := value; date_time := time_stamp exp_data;
       valid := true; exp_id := experiment_id exp_data |}.

(** *** The two experiments *)

Definition np_pi : float := 3.141592653589793%float.

Inductive FineEFAmplitudeCal : Type :=
| FineEFSXAmplitudeCal
| FineEFXAmplitudeCal.

Definition schedule_name (cls : FineEFAmplitudeCal) : string :=
  match cls with
  | FineEFSXAmplitudeCal => "sx12"
  | FineEFXAmplitudeCal => "x12"
  end.

Definition target_angle (cls : FineEFAmplitudeCal) : float :=
  match cls with
  | FineEFSXAmplitudeCal => (np_pi / 2)%float
  | FineEFXAmplitudeCal => np_pi
  end.

(** [update_calibrations] of either class; [calibrations] is the store held
    by the experiment, returned with the new entry appended. *)
Definition update_calibrations (cls : FineEFAmplitudeCal)
  (calibrations : Store) (physical_qubits : list Z)
  (experiment_data : ExperimentData) : PyResult Store :=
  current_amp ← get_parameter_value calibrations "amp" physical_qubits
                  (Some (schedule_name cls));
  angle_error ← get_value experiment_data "d_theta12";
  let target_anle := target_angle cls in
  let new_amp := (current_amp * target_anle / (target_anle + angle_error))%float in
  Return (add_parameter_value calibrations experiment_data new_amp "amp"
            (schedule_name cls)).

(** A store holding amplitude 0.2 for [sx12] on qubit 0, and the data of an
    experiment that measured the rotation error 0.1 * pi / 2. *)
Definition example_store : Store :=
  {[ ("amp", [0], Some "sx12") :=
       [ {| pv_value := 0.2%float; date_time := 100; valid := true;
            exp_id := "default" |} ] ]}.

Definition example_data : ExperimentData :=
  {| analysis_results := [("d_theta12", (0.1 * np_pi / 2)%float)];
     metadata_physical_qubits := [0];
     time_stamp := 200;
     experiment_id := "fine-amp-1" |}.

End FineAmp.

(** ** library/ef_spectroscopy.py: the anharmonicity updates *)

Module Spectroscopy.
Import FineAmp.

(** [BaseUpdater.add_parameter_value] with the schedule left to its default
    [None] or given. *)
Definition add_parameter_value_at (cal : Store) (exp_data : ExperimentData)
  (value : float) (param : string) (schedule : option string) : Store :=
  add_value cal (param, metadata_physical_qubits exp_data, schedule)
    {| pv_value := value; date_time := time_stamp exp_data;
       valid := true; exp_id := experiment_id exp_data |}.

(** [RoughEFFrequencyCal.update_calibrations]. *)
Definition rough_update_calibrations (calibrations : Store)
  (physical_qubits : list Z) (experiment_data : ExperimentData) : PyResult Store :=
  delta ← get_value experiment_data "Δα";
  anh ← get_parameter_value calibrations "α" physical_qubits None;
  Return (add_parameter_value_at calibrations experiment_data
            (anh + delta)%float "α" None).

(** The [try] block of [NarrowBandEFSpectroscopyCal.update_calibrations]
    with its [except ExperimentEntryNotFound] clause. *)
Definition narrow_delta (experiment_data : ExperimentData) : PyResult float :=
  match (delta_0 ← get_value experiment_data "Δα0";
         delta_1 ← get_value experiment_data "Δα1";
         Return (0.5 * (delta_0 + delta_1))%float) with
  | Raise (ExperimentEntryNotFound _) => get_value experiment_data "Δα"
  | other => other
  end.

(** [NarrowBandEFSpectroscopyCal.update_calibrations]. *)
Definition narrow_update_calibrations (calibrations : Store)
  (physical_qubits : list Z) (experiment_data : ExperimentData) : PyResult Store :=
  delta ← narrow_delta experiment_data;
  anh ← get_parameter_value calibrations "α" physical_qubits None;
  Return (add_parameter_value_at calibrations experiment_data
            (anh + delta)%float "α" None).

(** A store with the anharmonicity of qubit 0, and the data of three fits:
    two peaks, one peak, and a lone first peak beside a single-peak result. *)
Definition anharmonicity_store : Store :=
  {[ ("α", [0], None) :=
       [ {| pv_value := (-300e6)%float; date_time := 100; valid := true;
            exp_id := "default" |} ] ]}.

Definition data_with (results : list (string * float)) : ExperimentData :=
  {| analysis_results := results;
     metadata_physical_qubits := [0];
     time_stamp := 200;
     experiment_id := "narrow-band-1" |}.

Definition two_peak_data : ExperimentData :=
  data_with [("Δα0", 1e6%float); ("Δα1", 3e6%float); ("Δα", 5e6%float)].

Definition lone_peak_data : ExperimentData :=
  data_with [("Δα0", 1e6%float); ("Δα", 5e6%float)].

Definition no_peak_data : ExperimentData :=
  data_with [("Δα1", 3e6%float)].

End Spectroscopy.

(** ** framework/utils.py: [format_params] *)

Module Utils.

(** *** Python's [decimal]: contexts, values, [quantize] *)

Inductive Rounding : Type :=
| ROUND_DOWN | ROUND_HALF_UP | ROUND_HALF_EVEN | ROUND_CEILING
| ROUND_FLOOR | ROUND_UP | ROUND_HALF_DOWN | ROUND_05UP.

Record Context : Type := {
  ctx_prec : Z;
  ctx_rounding : Rounding;
  ctx_Emin : Z;
  ctx_Emax : Z
}.

Definition DefaultContext : Context :=
  {| ctx_prec := 28; ctx_rounding := ROUND_HALF_EVEN;
     ctx_Emin := -999999; ctx_Emax := 999999 |}.

Definition with_rounding (ctx : Context) (mode : Rounding) : Context :=
  {| ctx_prec := ctx_prec ctx; ctx_rounding := mode;
     ctx_Emin := ctx_Emin ctx; ctx_Emax := ctx_Emax ctx |}.

(** The module-level statement
    [decimal.getcontext().rounding = decimal.ROUND_DOWN]. *)
Definition utils_context : Context := with_rounding DefaultContext ROUND_DOWN.

Definition Etiny (ctx : Context) : Z := ctx_Emin ctx - ctx_prec ctx + 1.

(** A decimal is a sign, a coefficient and an exponent, or special. *)
Inductive Decimal : Type :=
| Dfinite (sign : bool) (coeff : N) (exp : Z)
| Dinfinity (sign : bool)
| DNaN.

(** [len(self._int)]: the number of decimal digits of the coefficient. *)
Fixpoint ndigits_fuel (fuel : nat) (c : N) : Z :=
  match fuel with
  | O => 1
  | S fuel' => if (c <? 10)%N then 1 else 1 + ndigits_fuel fuel' (c / 10)%N
  end.

Definition ndigits (c : N) : Z := ndigits_fuel (N.to_nat (N.size c)) c.

Definition pow10 (k : Z) : N := (10 ^ Z.to_N k)%N.

(** Whether the kept digits [q] are incremented, given the discarded part
    [r] out of [d] and the sign. *)
Definition round_increment (mode : Rounding) (sign : bool) (q r d : N) : bool :=
  match mode with
  | ROUND_DOWN => false
  | ROUND_UP => negb (r =? 0)%N
  | ROUND_HALF_UP => (d <=? 2 * r)%N
  | ROUND_HALF_DOWN => (d <? 2 * r)%N
  | ROUND_HALF_EVEN => ((d <? 2 * r) || ((d =? 2 * r) && N.odd q))%N
  | ROUND_CEILING => negb sign && negb (r =? 0)%N
  | ROUND_FLOOR => sign && negb (r =? 0)%N
  | ROUND_05UP =>
      negb (r =? 0)%N && ((q mod 10 =? 0) || (q mod 10 =? 5))%N
  end.

(** [_rescale] of a finite non-zero value: the coefficient at exponent [exp]. *)
Definition _rescale (mode : Rounding) (sign : bool) (c : N) (e exp : Z) : N :=
  if exp <=? e then (c * pow10 (e - exp))%N
  else
    let d := pow10 (exp - e) in
    let q := (c / d)%N in
    let r := (c mod d)%N in
    if round_increment mode sign q r d then (q + 1)%N else q.

(** [self.quantize(Decimal((0, (1,), exp)))] in context [ctx] with
    [InvalidOperation] trapped. The closing [_fix] changes nothing here: the
    target exponent lies between [Etiny] and [Emax] and the coefficient has
    at most [prec] digits. *)
Definition quantize (ctx : Context) (self : Decimal) (exp : Z) : PyResult Decimal :=
  match self with
  | DNaN => Return DNaN
  | Dinfinity _ => Raise (InvalidOperation "quantize with one INF")
  | Dfinite s c e =>
      if negb ((Etiny ctx <=? exp) && (exp <=? ctx_Emax ctx))
      then Raise (InvalidOperation "target exponent out of bounds in quantize")
      else if (c =? 0)%N then Return (Dfinite s 0 exp)
      else
        let self_adjusted := e + ndigits c - 1 in
        if ctx_Emax ctx <? self_adjusted
        then Raise (InvalidOperation
                      "exponent of quantize result too large for current context")
        else if ctx_prec ctx <? self_adjusted - exp + 1
        then Raise (InvalidOperation
                      "quantize result has too many digits for current context")
        else
          let c' := _rescale (ctx_rounding ctx) s c e exp in
          if ctx_Emax ctx <? exp + ndigits c' - 1
          then Raise (InvalidOperation
                        "exponent of quantize result too large for current context")
          else if ctx_prec ctx <? ndigits c'
          then Raise (InvalidOperation
                        "quantize result has too many digits for current context")
          else Return (Dfinite s c' exp)
  end.

(** [round(d, n)] with [n] given is [d.quantize(Decimal('1E-n'))]. *)
Definition Decimal_round (ctx : Context) (self : Decimal) (n : Z)
  : PyResult Decimal :=
  quantize ctx self (- n).

(** *** Conversions between [float] and [Decimal] *)

(** [m / 2^k] in lowest terms: the numerator and the remaining power. *)
Fixpoint reduce_ratio (m : positive) (k : nat) {struct m} : positive * nat :=
  match k, m with
  | S k', xO m' => reduce_ratio m' k'
  | _, _ => (m, k)
  end.

(** [decimal.Decimal(f)] for a float [f]: exact. *)
Definition Decimal_from_float (f : float) : Decimal :=
  match Prim2SF f with
  | S754_nan => DNaN
  | S754_infinity s => Dinfinity s
  | S754_zero s => Dfinite s 0 0
  | S754_finite s m e =>
      if 0 <=? e then Dfinite s (Npos m * 2 ^ Z.to_N e)%N 0
      else
        let (n, k) := reduce_ratio m (Z.to_nat (- e)) in
        Dfinite s (Npos n * 5 ^ N.of_nat k)%N (- Z.of_nat k)
  end.

Definition pos_pow10 (k : Z) : positive :=
  match pow10 k with
  | Npos q => q
  | N0 => 1%positive
  end.

(** [float(d)]: the binary64 number nearest to the decimal, ties to even. *)
Definition Decimal_to_float (d : Decimal) : float :=
  match d with
  | DNaN => nan
  | Dinfinity s => if s then neg_infinity else infinity
  | Dfinite s 0%N _ => if s then neg_zero else zero
  | Dfinite s (Npos p) e =>
      let num := if 0 <=? e then (p * pos_pow10 e)%positive else p in
      let den := if 0 <=? e then 1%positive else pos_pow10 (- e) in
      SF2Prim (SFdiv prec emax (S754_finite s num 0) (S754_finite false den 0))
  end.

(** *** The function *)

Definition format_params_in (ctx : Context) (value : float) (digit : Z)
  : PyResult float :=
  round_val ← Decimal_round ctx (Decimal_from_float value) digit;
  Return (Decimal_to_float round_val).

Definition format_params (value : float) (digit : Z) : PyResult float :=
  format_params_in utils_context value digit.

(** The call with [digit] left to its default. *)
Definition format_params_default (value : float) : PyResult float :=
  format_params value 3.

(** *** Exact magnitudes, for stating what the function computes *)

(** The rational number [c * 10^e]. *)
Definition Dmag (c : N) (e : Z) : Q :=
  if 0 <=? e then inject_Z (Z.of_N c * 10 ^ e)
  else Qmake (Z.of_N c) (Z.to_pos (10 ^ (- e))).

(** The magnitude of a finite float, [m * 2^e], as a rational number. *)
Definition float_mag (f : float) : Q :=
  match Prim2SF f with
  | S754_finite _ m e =>
      if 0 <=? e then inject_Z (Zpos m * 2 ^ e)
      else Qmake (Zpos m) (Z.to_pos (2 ^ (- e)))
  | _ => 0%Q
  end.

(** The coefficient of [c * 10^e] once it is written at the exponent
    [m <= e]. *)
Definition scaled (c : N) (e m : Z) : Z := Z.of_N c * 10 ^ (e - m).

(** The decimal with the opposite sign. *)
Definition Decimal_negate (d : Decimal) : Decimal :=
  match d with
  | Dfinite s c e => Dfinite (negb s) c e
  | Dinfinity s => Dinfinity (negb s)
  | DNaN => DNaN
  end.

(** The sign bit of a float, and whether it is zero or finite. *)
Definition float_sign (f : float) : bool :=
  match Prim2SF f with
  | S754_zero s | S754_infinity s | S754_finite s _ _ => s
  | S754_nan => false
  end.

Definition float_finite (f : float) : bool :=
  match Prim2SF f with
  | S754_zero _ | S754_finite _ _ _ => true
  | _ => false
  end.

End Utils.

(** ** library/ef_rough_amp.py and library/ef_roughdrag.py: the sweeps *)

Module RoughSweeps.
Import Calibrations Utils.

(** A circuit made from a template by [assign_parameters], with its
    metadata: [xval], and [nrep] where the metadata has one. *)
Record SweepCircuit (T : Type) : Type := {
  template : T;
  assigned : float;
  xval : float;
  nrep : option Z
}.
Arguments template {T} _.
Arguments assigned {T} _.
Arguments xval {T} _.
Arguments nrep {T} _.

(** The circuit appended for the formatted value [to_assign]. *)
Definition bound {T : Type} (tmp_circ : T) (nrep : option Z) (to_assign : float)
  : SweepCircuit T :=
  {| template := tmp_circ; assigned := to_assign; xval := to_assign; nrep := nrep |}.

(** One turn of the loop over the sweep values. *)
Definition sweep_step {T : Type} (tmp_circ : T) (nrep : option Z)
  (circs : list (SweepCircuit T)) (value : float) : PyResult (list (SweepCircuit T)) :=
  to_assign ← format_params_default value;
  Return (circs ++ [bound tmp_circ nrep to_assign]).

(** The sweep values [values] are all accepted by [format_params], with
    results [xs]. *)
Definition formatted (values xs : list float) : Prop :=
  Forall2 (fun value x => format_params_default value = Return x) values xs.

(** The value kept for [value]: cut after three places, toward zero. *)
Definition cut_of (value x : float) : Prop :=
  exists c',
    x = Decimal_to_float (Dfinite (float_sign value) c' (- 3)) /\
    (Dmag c' (- 3) <= float_mag value)%Q /\
    (float_mag value < Dmag (c' + 1) (- 3))%Q.

Record AmpOptions : Type := {
  amp_min : float;
  amp_max : float;
  amp_num : Z
}.

Record DragOptions : Type := {
  beta_min : float;
  beta_max : float;
  beta_num : Z;
  reps : list Z
}.

Section Sweeps.
Context {Schedule Sequence : Type}.

(** [np.linspace], and what the [with builder.build()] block of
    [RoughEFAmplitudeCal.circuits] yields. *)
Variable linspace : float -> float -> Z -> PyResult (list float).
Variable rabi_sched : PyResult Schedule.

(** [RoughEFAmplitudeCal.circuits]. *)
Definition amp_circuits (opt : AmpOptions)
  : PyResult (list (SweepCircuit Schedule)) :=
  tmp_circ ← rabi_sched;
  amps ← linspace (amp_min opt) (amp_max opt) (amp_num opt);
  for_each (sweep_step tmp_circ None) amps [].

(** The abstract method of [RoughEFDragCal]. *)
Variable _sequence_under_test : Z -> PyResult Sequence.

(** One turn of [for nrep in opt.reps]. *)
Definition drag_step (opt : DragOptions) (circs : list (SweepCircuit Sequence))
  (nrep : Z) : PyResult (list (SweepCircuit Sequence)) :=
  tmp_circ ← _sequence_under_test nrep;
  betas ← linspace (beta_min opt) (beta_max opt) (beta_num opt);
  for_each (sweep_step tmp_circ (Some nrep)) betas circs.

(** [RoughEFDragCal.circuits]. *)
Definition drag_circuits (opt : DragOptions)
  : PyResult (list (SweepCircuit Sequence)) :=
  for_each (drag_step opt) (reps opt) [].

End Sweeps.

(** *** The two sequences under test *)

Inductive DragClass : Type :=
| RoughEFXDragCal
| RoughEFSXDragCal.

Definition gate_under_test (cls : DragClass) : string :=
  match cls with
  | RoughEFXDragCal => "x12"
  | RoughEFSXDragCal => "sx12"
  end.

(** [f"amplification_{nrep:02d}"]. *)
Definition amplification_label (nrep : Z) : string :=
  "amplification_" +:+
  (if (0 <=? nrep) && (nrep <? 10) then "0" +:+ Z_to_string nrep
   else Z_to_string nrep).

Record TestSequence (Chan Sub : Type) : Type := {
  label : string;
  frequency_channel : Chan;
  calls : list Sub
}.
Arguments label {Chan Sub} _.
Arguments frequency_channel {Chan Sub} _.
Arguments calls {Chan Sub} _.

Section SequenceUnderTest.
Context {Chan Sub : Type}.

(** The two macros of framework/utils.py as called with the experiment's
    calibrations and qubits: [qutrit_context] returns the channel whose
    frequency it sets, [play_calibration] takes the schedule's name and
    the [angle] override, the [β] override being the circuit's
    parameter. *)
Variable qutrit_context : PyResult Chan.
Variable play_calibration : string -> float -> PyResult Sub.

(** One turn of [for _ in range(nrep)]. *)
Definition play_pair (name : string) (calls : list Sub) (_ : Z)
  : PyResult (list Sub) :=
  first ← play_calibration name 0.0%float;
  second ← play_calibration name FineAmp.np_pi;
  Return (calls ++ [first; second]).

(** [_sequence_under_test] of [RoughEFXDragCal] and [RoughEFSXDragCal]. *)
Definition sequence_under_test (cls : DragClass) (nrep : Z)
  : PyResult (TestSequence Chan Sub) :=
  channel ← qutrit_context;
  calls ← for_each (play_pair (gate_under_test cls)) (range (Z.to_nat nrep)) [];
  Return {| label := amplification_label nrep;
            frequency_channel := channel;
            calls := calls |}.

End SequenceUnderTest.

(** *** Values for the examples *)

(** [np.linspace] with its defaults, for a non-negative count that fits a
    machine integer: [arange(0, num) * step + start] with the last value
    set to [stop]. *)
Definition float_of_Z (z : Z) : float := PrimFloat.of_uint63 (Uint63.of_Z z).

Definition set_last (stop : float) (y : list float) : list float :=
  match y with
  | [] => []
  | _ => take (length y - 1)%nat y ++ [stop]
  end.

Definition np_linspace (start stop : float) (num : Z) : PyResult (list float) :=
  if num <? 0
  then Raise (ValueError ("Number of samples, " +:+ Z_to_string num +:+
                          ", must be non-negative."))
  else
    let div := num - 1 in
    let delta := (stop - start)%float in
    let y := map float_of_Z (range (Z.to_nat num)) in
    let y :=
      if 0 <? div then
        let step := (delta / float_of_Z div)%float in
        if (step =? 0)%float
        then map (fun v => (v / float_of_Z div * delta)%float) y
        else map (fun v => (v * step)%float) y
      else map (fun v => (v * delta)%float) y in
    let y := map (fun v => (v + start)%float) y in
    Return (if 1 <? num then set_last stop y else y).

Definition default_amp_options : AmpOptions :=
  {| amp_min := (-0.5)%float; amp_max := 0.5%float; amp_num := 51 |}.

Definition default_drag_options : DragOptions :=
  {| beta_min := (-5)%float; beta_max := 5%float; beta_num := 51; reps := [1; 3; 5] |}.

(** A sweep whose upper end is an infinity. *)
Definition unbounded_drag_options : DragOptions :=
  {| beta_min := 0%float; beta_max := infinity; beta_num := 2; reps := [1] |}.

(** Calibrations that hold the channel and both schedules. *)
Definition example_context : PyResult Z := Return 0.
Definition example_play (name : string) (angle : float) : PyResult (string * float) :=
  Return (name, angle).

Definition example_sequence_under_test (cls : DragClass) (nrep : Z)
  : PyResult (TestSequence Z (string * float)) :=
  sequence_under_test example_context example_play cls nrep.

(** The result of a call that is known to return. *)
Definition returned {A : Type} (r : PyResult (list A)) : list A :=
  match r with
  | Return l => l
  | Raise _ => []
  end.

Definition example_rabi_sched : PyResult string := Return "rabi".

Definition default_amps : list float :=
  returned (np_linspace (amp_min default_amp_options) (amp_max default_amp_options)
              (amp_num default_amp_options)).

Definition default_betas : list float :=
  returned (np_linspace (beta_min default_drag_options)
              (beta_max default_drag_options) (beta_num default_drag_options)).

Definition default_beta_xvals : list float :=
  returned (for_each (fun xs beta => x ← format_params_default beta; Return (xs ++ [x]))
              default_betas []).

Definition default_sequences : list (TestSequence Z (string * float)) :=
  returned (for_each (fun seqs nrep =>
                        s ← example_sequence_under_test RoughEFXDragCal nrep;
                        Return (seqs ++ [s]))
              (reps default_drag_options) []).

End RoughSweeps.

(** ** library/ef_spectroscopy.py: the initial guesses of the two-peak fit *)

Module DoublePeak.
Import Calibrations.

(** What [scipy.signal.find_peaks] has returned: the positions of the peaks
    in the data, in increasing order, with their heights and widths. *)
Record FoundPeaks : Type := {
  peaks : list nat;
  peak_heights : list float;
  widths : list float
}.

(** What the lines after [find_peaks] hand to [p0.set_if_empty]: nothing,
    with a warning, or the dictionary [opt]. *)
Inductive Guesses : Type :=
| TwoPeaksNotFound (warning : string)
| GuessesFor (opt : gmap string float).

(** Indexing an array. *)
Definition item {A : Type} (a : list A) (i : nat) : PyResult A :=
  match a !! i with
  | Some v => Return v
  | None =>
      Raise (IndexError ("index " +:+ pretty i +:+
                         " is out of bounds for axis 0 with size " +:+
                         pretty (length a)))
  end.

(** [f"a{ind}"], [f"kappa{ind}"] and [f"x{ind}"]. *)
Definition key (name : string) (ind : nat) : string := name +:+ pretty ind.

(** [arr] is sorted along the indices [order], as [np.argsort] leaves it. *)
Definition sorted_along (arr : list float) (order : list nat) : Prop :=
  forall k l a b,
    (k < l)%nat -> order !! k = Some a -> order !! l = Some b ->
    exists va vb,
      arr !! a = Some va /\ arr !! b = Some vb /\ (va <=? vb)%float = true.

Section FitGuesses.
Variable argsort : list float -> list nat.

(** One turn of [for peak_ind in range(2)]. *)
Definition guess_step (found : FoundPeaks) (x : list float) (offset : float)
  (from_higher : list nat) (opt : gmap string float) (peak_ind : Z)
  : PyResult (gmap string float) :=
  ind ← item from_higher (Z.to_nat peak_ind);
  hight ← item (peak_heights found) ind;
  let opt := <[ key "a" ind := (hight - offset)%float ]> opt in
  width ← item (widths found) ind;
  let opt := <[ key "kappa" ind := width ]> opt in
  peak ← item (peaks found) ind;
  position ← item x peak;
  Return (<[ key "x" ind := position ]> opt).

(** [DoublePeakResonanceAnalysis._generate_fit_guesses] from the result of
    [find_peaks] on: [x] is [curve_data.x] and [offset] the value of
    [user_opt.p0["offset"]]. *)
Definition peak_guesses (found : FoundPeaks) (x : list float) (offset : float)
  : PyResult Guesses :=
  if (length (peaks found) <? 2)%nat
  then Return (TwoPeaksNotFound
                 "Two peaks are not found. Use lower resolution or wider detuning range.")
  else
    let from_higher := reverse (argsort (peak_heights found)) in
    opt ← for_each (guess_step found x offset from_higher) (range 2) ∅;
    Return (GuessesFor opt).

End FitGuesses.

(** *** Values for the examples *)

(** A sort of the indices by insertion, standing for [np.argsort] on
    arrays without NaN. *)
Fixpoint insert_by (a : nat * float) (l : list (nat * float)) : list (nat * float) :=
  match l with
  | [] => [a]
  | b :: rest =>
      if (snd a <=? snd b)%float then a :: l else b :: insert_by a rest
  end.

Definition np_argsort (arr : list float) : list nat :=
  map fst (foldr insert_by [] (imap (fun i v => (i, v)) arr)).

(** Three peaks, the second one the lowest. *)
Definition three_peaks : FoundPeaks :=
  {| peaks := [2; 5; 8]%nat;
     peak_heights := [0.9; 0.6; 0.8]%float;
     widths := [3.5; 4; 4.5]%float |}.

Definition detunings : list float :=
  [-5; -4; -3; -2; -1; 0; 1; 2; 3; 4; 5]%float.

Definition three_peak_guesses : PyResult Guesses :=
  peak_guesses np_argsort three_peaks detunings 0.1%float.

End DoublePeak.
(** ** Order facts about binary64 comparison

    [PrimFloat.ltb] and [PrimFloat.leb] are specified by [SFcompare] on
    [spec_float]; away from NaN this is a total preorder. *)

Module FloatOrder.

Ltac sf_cases :=
  repeat match goal with
  | |- context [Z.compare ?a ?b] => destruct (Z.compare_spec a b)
  | |- context [Pos.compare_cont Eq ?a ?b] =>
      change (Pos.compare_cont Eq a b) with (Pos.compare a b);
      destruct (Pos.compare_spec a b)
  | H : context [Z.compare ?a ?b] |- _ => destruct (Z.compare_spec a b)
  | H : context [Pos.compare_cont Eq ?a ?b] |- _ =>
      change (Pos.compare_cont Eq a b) with (Pos.compare a b) in H;
      destruct (Pos.compare_spec a b)
  end; simpl in *; try congruence; try lia.

Lemma SFcompare_refl a : sf_nan a = false -> SFcompare a a = Some Eq.
Proof.
  destruct a as [s|s| |s m e]; simpl; try congruence; intros _.
  - destruct s; reflexivity.
  - f_equal. rewrite Z.compare_refl.
    change (Pos.compare_cont Eq m m) with (Pos.compare m m).
    rewrite Pos.compare_refl. destruct s; reflexivity.
Qed.

Lemma SFltb_false_leb a b :
  sf_nan a = false -> sf_nan b = false -> SFltb a b = false -> SFleb b a = true.
Proof.
  unfold SFltb, SFleb.
  destruct a as [sa|sa| |sa ma ea], b as [sb|sb| |sb mb eb]; simpl;
    try congruence; intros _ _;
    repeat match goal with s : bool |- _ => destruct s end; simpl;
    try congruence; sf_cases.
Qed.

Lemma SFltb_leb a b : SFltb a b = true -> SFleb a b = true.
Proof.
  unfold SFltb, SFleb. destruct (SFcompare a b) as [[ | | ]|]; congruence.
Qed.

Lemma SFltb_leb_trans a b c :
  SFltb a b = true -> SFleb b c = true -> SFltb a c = true.
Proof.
  unfold SFltb, SFleb.
  destruct a as [sa|sa| |sa ma ea], b as [sb|sb| |sb mb eb],
           c as [sc|sc| |sc mc ec]; simpl; try congruence;
    repeat match goal with s : bool |- _ => destruct s end; simpl;
    try congruence; sf_cases.
Qed.

Lemma SFleb_trans a b c :
  SFleb a b = true -> SFleb b c = true -> SFleb a c = true.
Proof.
  unfold SFleb.
  destruct a as [sa|sa| |sa ma ea], b as [sb|sb| |sb mb eb],
           c as [sc|sc| |sc mc ec]; simpl; try congruence;
    repeat match goal with s : bool |- _ => destruct s end; simpl;
    try congruence; sf_cases.
Qed.

Lemma SFleb_ltb_trans a b c :
  SFleb a b = true -> SFltb b c = true -> SFltb a c = true.
Proof.
  unfold SFltb, SFleb.
  destruct a as [sa|sa| |sa ma ea], b as [sb|sb| |sb mb eb],
           c as [sc|sc| |sc mc ec]; simpl; try congruence;
    repeat match goal with s : bool |- _ => destruct s end; simpl;
    try congruence; sf_cases.
Qed.

Lemma SFltb_irrefl a : SFltb a a = false.
Proof.
  unfold SFltb. destruct (sf_nan a) eqn:E.
  - destruct a; simpl in *; congruence.
  - now rewrite SFcompare_refl.
Qed.

Lemma SFleb_infinity a : sf_nan a = false -> SFleb a (S754_infinity false) = true.
Proof. destruct a as [s|[]| |[] m e]; simpl; intros; congruence || reflexivity. Qed.

(** The same facts on primitive floats. *)

Lemma is_nan_sf x : is_nan x = sf_nan (Prim2SF x).
Proof.
  unfold is_nan. rewrite FloatAxioms.eqb_spec. unfold SFeqb.
  destruct (sf_nan (Prim2SF x)) eqn:E.
  - destruct (Prim2SF x); simpl in *; congruence.
  - now rewrite SFcompare_refl.
Qed.

Lemma ltb_false_leb x y :
  is_nan x = false -> is_nan y = false ->
  (x <? y)%float = false -> (y <=? x)%float = true.
Proof.
  rewrite !is_nan_sf, ltb_spec, leb_spec. apply SFltb_false_leb.
Qed.

Lemma ltb_leb x y : (x <? y)%float = true -> (x <=? y)%float = true.
Proof. rewrite ltb_spec, leb_spec. apply SFltb_leb. Qed.

Lemma ltb_leb_trans x y z :
  (x <? y)%float = true -> (y <=? z)%float = true -> (x <? z)%float = true.
Proof. rewrite !ltb_spec, leb_spec. apply SFltb_leb_trans. Qed.

Lemma leb_ltb_trans x y z :
  (x <=? y)%float = true -> (y <? z)%float = true -> (x <? z)%float = true.
Proof. rewrite !ltb_spec, leb_spec. apply SFleb_ltb_trans. Qed.

Lemma leb_trans x y z :
  (x <=? y)%float = true -> (y <=? z)%float = true -> (x <=? z)%float = true.
Proof. rewrite !leb_spec. apply SFleb_trans. Qed.

Lemma leb_refl x : is_nan x = false -> (x <=? x)%float = true.
Proof.
  rewrite is_nan_sf, leb_spec. intros H. unfold SFleb.
  now rewrite SFcompare_refl.
Qed.

Lemma ltb_irrefl x : (x <? x)%float = false.
Proof. rewrite ltb_spec. apply SFltb_irrefl. Qed.

Lemma leb_infinity x : is_nan x = false -> (x <=? infinity)%float = true.
Proof.
  rewrite is_nan_sf, leb_spec. intros H.
  change (Prim2SF infinity) with (S754_infinity false).
  now apply SFleb_infinity.
Qed.

Lemma ltb_not_nan_l x y : (x <? y)%float = true -> is_nan x = false.
Proof.
  rewrite is_nan_sf, ltb_spec. unfold SFltb.
  destruct (Prim2SF x); simpl; congruence.
Qed.

End FloatOrder.


(** ** Facts about [nanargmin] *)

Module NanArgMinFacts.
Import FloatOrder MultiAnalyses.

Lemma replace_nan_not_nan x : is_nan (replace_nan x) = false.
Proof. unfold replace_nan. destruct (is_nan x) eqn:E; [reflexivity | exact E]. Qed.

Lemma replace_nan_id x : is_nan x = false -> replace_nan x = x.
Proof. unfold replace_nan. now intros ->. Qed.

Lemma replace_nan_nan x : is_nan x = true -> replace_nan x = infinity.
Proof. unfold replace_nan. now intros ->. Qed.

Lemma argmin_from_first_min rest :
  forall pre best_i best,
    Forall (fun y => is_nan y = false) (pre ++ rest) ->
    first_min pre best_i best ->
    exists v, first_min (pre ++ rest) (argmin_from best_i best (length pre) rest) v.
Proof.
  induction rest as [|x rest IH]; intros pre best_i best Hnan (Hb & Hle & Hlt).
  - simpl. rewrite app_nil_r. exists best. repeat split; assumption.
  - assert (Hx : is_nan x = false).
    { rewrite Forall_app in Hnan. destruct Hnan as [_ Hr]. now inversion Hr. }
    assert (Hbn : is_nan best = false).
    { rewrite Forall_app in Hnan. destruct Hnan as [Hp _].
      rewrite Forall_lookup in Hp. exact (Hp _ _ Hb). }
    simpl.
    replace (S (length pre)) with (length (pre ++ [x]))
      by (rewrite length_app; simpl; lia).
    replace (pre ++ x :: rest) with ((pre ++ [x]) ++ rest) in *
      by (now rewrite <- app_assoc).
    destruct (x <? best)%float eqn:Hcmp.
    + apply IH; [assumption|]. repeat split.
      * rewrite lookup_app_r by lia. now rewrite Nat.sub_diag.
      * intros j y Hj. apply lookup_app_Some in Hj as [Hj | [_ Hj]].
        -- apply ltb_leb. eapply ltb_leb_trans; eauto.
        -- destruct (j - length pre)%nat; simpl in Hj; [|discriminate].
           injection Hj as <-. now apply leb_refl.
      * intros j y Hlen Hj. rewrite lookup_app_l in Hj by exact Hlen.
        eapply ltb_leb_trans; eauto.
    + apply IH; [assumption|]. repeat split.
      * apply lookup_app_l_Some. exact Hb.
      * intros j y Hj. apply lookup_app_Some in Hj as [Hj | [_ Hj]].
        -- eauto.
        -- destruct (j - length pre)%nat; simpl in Hj; [|discriminate].
           injection Hj as <-. now apply ltb_false_leb.
      * intros j y Hlen Hj.
        assert (best_i < length pre)%nat by (eapply lookup_lt_Some; eauto).
        rewrite lookup_app_l in Hj by lia. eauto.
Qed.

Lemma argmin_first_min l :
  l <> [] -> Forall (fun y => is_nan y = false) l ->
  exists k v, argmin l = Return k /\ first_min l k v.
Proof.
  destruct l as [|x rest]; [congruence|]. intros _ Hnan.
  destruct (argmin_from_first_min rest [x] 0%nat x) as [v Hv].
  - exact Hnan.
  - repeat split.
    + intros [|j] y Hj; simpl in Hj; [|discriminate].
      injection Hj as <-. apply leb_refl. now inversion Hnan.
    + intros j y Hj. lia.
  - exists (argmin_from 0 x 1 rest), v. split; [reflexivity | exact Hv].
Qed.

Lemma nanargmin_first_min a :
  Exists (fun y => is_nan y = false) a ->
  exists k v, nanargmin a = Return k /\ first_min (map replace_nan a) k v.
Proof.
  intros Hex. unfold nanargmin.
  assert (Hall : forallb is_nan a = false).
  { apply not_true_is_false. intros Hall. rewrite forallb_forall in Hall.
    apply Exists_exists in Hex as (y & Hin & Hy).
    apply list_elem_of_In in Hin. specialize (Hall y Hin). congruence. }
  rewrite Hall, andb_false_r. apply argmin_first_min.
  - destruct a; [inversion Hex | discriminate].
  - apply Forall_map, Forall_forall. intros y _. apply replace_nan_not_nan.
Qed.

End NanArgMinFacts.

(** ** The selector keeps the first least chi-square *)

Module MultiAnalysesFacts.
Import FloatOrder MultiAnalyses NanArgMinFacts.

Section SelectorFacts.

Variable PARAMS_ENTRY_PREFIX : string.
Context {ExperimentData Figure : Type}.

Abbreviation Analysis := (@Analysis ExperimentData Figure).
Abbreviation survivors := (survivors PARAMS_ENTRY_PREFIX).
Abbreviation survivor := (survivor PARAMS_ENTRY_PREFIX).
Abbreviation collect := (collect PARAMS_ENTRY_PREFIX).
Abbreviation collect_one := (collect_one PARAMS_ENTRY_PREFIX).
Abbreviation _run_analysis := (_run_analysis PARAMS_ENTRY_PREFIX).
Abbreviation first_params_chisq := (first_params_chisq PARAMS_ENTRY_PREFIX).

Implicit Types (analyses : list Analysis) (experiment_data : ExperimentData).

Lemma fold_collect_one analyses experiment_data (acc : Collected) :
  let s := survivors analyses experiment_data in
  fold_left (collect_one experiment_data) analyses acc =
  {| all_results := all_results acc ++ map (fun t => fst (fst t)) s;
     all_figures := all_figures acc ++ map (fun t => snd (fst t)) s;
     chisqs := chisqs acc ++ map snd s |}.
Proof.
  revert acc. induction analyses as [|a analyses IH]; intros acc; simpl.
  - rewrite !app_nil_r. now destruct acc.
  - rewrite IH. unfold survivors, collect_one, survivor. simpl.
    destruct (a experiment_data) as [[results figures]|e]; [|reflexivity].
    destruct (first_params_chisq results) as [c|]; [|reflexivity].
    simpl. now rewrite <- !app_assoc.
Qed.

Lemma collect_survivors analyses experiment_data :
  let s := survivors analyses experiment_data in
  collect analyses experiment_data =
  {| all_results := map (fun t => fst (fst t)) s;
     all_figures := map (fun t => snd (fst t)) s;
     chisqs := map snd s |}.
Proof. unfold collect. now rewrite fold_collect_one. Qed.

(** What [_run_analysis] returns once [nanargmin] has picked index [k]. *)
Lemma _run_analysis_picks analyses experiment_data k results figures c :
  survivors analyses experiment_data !! k = Some (results, figures, c) ->
  nanargmin (map snd (survivors analyses experiment_data)) = Return k ->
  _run_analysis analyses experiment_data = Return (results, figures).
Proof.
  intros Hk Harg. unfold _run_analysis. rewrite collect_survivors. simpl.
  destruct (survivors analyses experiment_data) as [|t s] eqn:Hs;
    [rewrite lookup_nil in Hk; discriminate|].
  rewrite <- Hs in *. clear Hs t s.
  destruct (map snd (survivors analyses experiment_data)) eqn:Hm.
  { apply (f_equal (@length _)) in Hm. rewrite length_map in Hm.
    apply lookup_lt_Some in Hk. simpl in Hm. lia. }
  rewrite Harg. simpl. unfold mbind, PyResult_bind.
  rewrite !list_lookup_fmap, Hk. reflexivity.
Qed.

Lemma survivors_nil_inv analyses experiment_data :
  (forall a, a ∈ analyses -> survivor experiment_data a = None) ->
  survivors analyses experiment_data = [].
Proof.
  induction analyses as [|a analyses IH]; intros H; [reflexivity|].
  unfold survivors. simpl. rewrite (H a) by apply list_elem_of_here.
  apply IH. intros b Hb. apply H. now apply list_elem_of_further.
Qed.

Lemma lookup_replace_nan (s : list (list AnalysisResultData * list Figure * float))
  k r f c :
  s !! k = Some (r, f, c) ->
  map replace_nan (map snd s) !! k = Some (replace_nan c).
Proof. intros H. now rewrite !list_lookup_fmap, H. Qed.

Lemma lookup_replace_nan_inv (s : list (list AnalysisResultData * list Figure * float))
  k v :
  map replace_nan (map snd s) !! k = Some v ->
  exists r f c, s !! k = Some (r, f, c) /\ v = replace_nan c.
Proof.
  rewrite !list_lookup_fmap. destruct (s !! k) as [[[r f] c]|]; simpl; [|discriminate].
  intros [= <-]. eauto.
Qed.

Lemma infinity_not_below c :
  (c <? infinity)%float = true -> (infinity <=? c)%float = false.
Proof.
  intros H. apply not_true_is_false. intros H'.
  pose proof (ltb_leb_trans _ _ _ H H') as Habs.
  rewrite ltb_irrefl in Habs. discriminate.
Qed.

Lemma nanargmin_survivors_least
  (s : list (list AnalysisResultData * list Figure * float)) i r f c :
  s !! i = Some (r, f, c) ->
  is_nan c = false ->
  (c <? infinity)%float = true ->
  (forall j rj fj cj, s !! j = Some (rj, fj, cj) -> is_nan cj = false ->
     (c <=? cj)%float = true /\ ((j < i)%nat -> (c <? cj)%float = true)) ->
  nanargmin (map snd s) = Return i.
Proof.
  intros Hi Hc Hfin Hmin.
  destruct (nanargmin_first_min (map snd s)) as (k & v & Harg & Hk & Hle & Hlt).
  { apply Exists_exists. exists c. split; [|exact Hc].
    apply list_elem_of_fmap. exists (r, f, c). split; [reflexivity|].
    eapply list_elem_of_lookup_2; eauto. }
  rewrite Harg. f_equal.
  apply lookup_replace_nan_inv in Hk as (rk & fk & ck & Hk & ->).
  pose proof (Hle _ _ (lookup_replace_nan _ _ _ _ _ Hi)) as Hvi.
  rewrite (replace_nan_id c Hc) in Hvi.
  assert (Hck : is_nan ck = false).
  { destruct (is_nan ck) eqn:E; [|reflexivity].
    rewrite (replace_nan_nan _ E) in Hvi.
    rewrite (infinity_not_below _ Hfin) in Hvi. discriminate. }
  rewrite (replace_nan_id _ Hck) in *.
  destruct (Hmin _ _ _ _ Hk Hck) as [Hcle Hclt].
  destruct (Nat.lt_trichotomy k i) as [Hlt'|[->|Hgt]]; [|reflexivity|].
  - specialize (Hclt Hlt').
    pose proof (ltb_leb_trans _ _ _ Hclt Hvi) as Habs.
    rewrite ltb_irrefl in Habs. discriminate.
  - pose proof (Hlt _ _ Hgt (lookup_replace_nan _ _ _ _ _ Hi)) as Hvlt.
    rewrite (replace_nan_id c Hc) in Hvlt.
    pose proof (leb_ltb_trans _ _ _ Hcle Hvlt) as Habs.
    rewrite ltb_irrefl in Habs. discriminate.
Qed.

Lemma nanargmin_survivors_not_nan
  (s : list (list AnalysisResultData * list Figure * float)) i r f c :
  s !! i = Some (r, f, c) ->
  is_nan c = false ->
  (c <? infinity)%float = true ->
  exists k rk fk ck,
    nanargmin (map snd s) = Return k /\ s !! k = Some (rk, fk, ck) /\
    is_nan ck = false.
Proof.
  intros Hi Hc Hfin.
  destruct (nanargmin_first_min (map snd s)) as (k & v & Harg & Hk & Hle & _).
  { apply Exists_exists. exists c. split; [|exact Hc].
    apply list_elem_of_fmap. exists (r, f, c). split; [reflexivity|].
    eapply list_elem_of_lookup_2; eauto. }
  apply lookup_replace_nan_inv in Hk as (rk & fk & ck & Hk & ->).
  exists k, rk, fk, ck. repeat split; [assumption..|].
  pose proof (Hle _ _ (lookup_replace_nan _ _ _ _ _ Hi)) as Hvi.
  rewrite (replace_nan_id c Hc) in Hvi.
  destruct (is_nan ck) eqn:E; [|reflexivity].
  rewrite (replace_nan_nan _ E) in Hvi.
  rewrite (infinity_not_below _ Hfin) in Hvi. discriminate.
Qed.

(** Declaration order is kept by the collection loop: the survivor made by
    the candidate at index [i] sits after exactly the survivors of the
    candidates declared before it. *)
Lemma survivors_split analyses experiment_data i a t :
  analyses !! i = Some a ->
  survivor experiment_data a = Some t ->
  survivors analyses experiment_data =
    survivors (take i analyses) experiment_data ++ t ::
    survivors (drop (S i) analyses) experiment_data.
Proof.
  intros Hi Ht.
  rewrite <- (take_drop_middle analyses i a Hi) at 1.
  unfold survivors. rewrite omap_app. simpl. now rewrite Ht.
Qed.

Lemma survivors_lookup_inv analyses experiment_data k t :
  survivors analyses experiment_data !! k = Some t ->
  exists j a, analyses !! j = Some a /\ survivor experiment_data a = Some t.
Proof.
  intros Hk. apply list_elem_of_lookup_2 in Hk.
  apply list_elem_of_omap in Hk as (a & Ha & Hs).
  apply list_elem_of_lookup_1 in Ha as [j Hj]. eauto.
Qed.

Lemma survivor_Some_inv experiment_data (a : Analysis) r f c :
  survivor experiment_data a = Some (r, f, c) ->
  a experiment_data = Return (r, f) /\ first_params_chisq r = Some c.
Proof.
  unfold survivor. destruct (a experiment_data) as [[r' f']|e]; [|discriminate].
  destruct (first_params_chisq r') as [c'|] eqn:E; [|discriminate].
  intros [= <- <- <-]. auto.
Qed.

Lemma survivor_Some experiment_data (a : Analysis) r f c :
  a experiment_data = Return (r, f) -> first_params_chisq r = Some c ->
  survivor experiment_data a = Some (r, f, c).
Proof. unfold survivor. now intros -> ->. Qed.

(** C3. When every candidate either raises or returns results without a
    fit-parameter entry, the three lists stay empty and the selector returns
    an empty result list and an empty figure list: nothing is raised. *)
Theorem no_survivor_returns_empty analyses experiment_data :
  (forall a, a ∈ analyses ->
     (exists e, a experiment_data = Raise e) \/
     (exists results figures, a experiment_data = Return (results, figures) /\
        first_params_chisq results = None)) ->
  _run_analysis analyses experiment_data = Return ([], []).
Proof.
  intros H. unfold _run_analysis. rewrite collect_survivors.
  rewrite survivors_nil_inv; [reflexivity|].
  intros a Ha. unfold survivor.
  destruct (H a Ha) as [[e ->]|(results & figures & -> & ->)]; reflexivity.
Qed.

(** C2 (amended). Candidates that raise, or that return no fit-parameter
    entry, take no part in the selection and do not stop it. If the
    candidate declared at index [i] returned [results] and [figures] with a
    chi-square [c] that is a number below +infinity, no other candidate's
    numeric chi-square is smaller, and every candidate declared earlier with
    a numeric chi-square has a strictly larger one, then the selector
    returns exactly that candidate's [results] and [figures]. *)
Theorem selects_first_least_chisq analyses experiment_data i a results figures c :
  analyses !! i = Some a ->
  a experiment_data = Return (results, figures) ->
  first_params_chisq results = Some c ->
  is_nan c = false ->
  (c <? infinity)%float = true ->
  (forall j aj rj fj cj,
      analyses !! j = Some aj ->
      aj experiment_data = Return (rj, fj) ->
      first_params_chisq rj = Some cj ->
      is_nan cj = false ->
      (c <=? cj)%float = true /\ ((j < i)%nat -> (c <? cj)%float = true)) ->
  _run_analysis analyses experiment_data = Return (results, figures).
Proof.
  intros Hi Ha Hchi Hc Hfin Hmin.
  pose proof (survivor_Some _ _ _ _ _ Ha Hchi) as Hs.
  pose proof (survivors_split _ _ _ _ _ Hi Hs) as Hsplit.
  set (pre := survivors (take i analyses) experiment_data) in *.
  assert (Hk : survivors analyses experiment_data !! length pre
               = Some (results, figures, c)).
  { rewrite Hsplit, lookup_app_r by lia. now rewrite Nat.sub_diag. }
  eapply _run_analysis_picks; [exact Hk|].
  eapply nanargmin_survivors_least; eauto.
  intros j rj fj cj Hj Hcj. split.
  - apply survivors_lookup_inv in Hj as (j' & aj & Hj' & Hsj).
    apply survivor_Some_inv in Hsj as [Haj Hchj].
    exact (proj1 (Hmin _ _ _ _ _ Hj' Haj Hchj Hcj)).
  - intros Hlt. rewrite Hsplit, lookup_app_l in Hj by exact Hlt.
    apply survivors_lookup_inv in Hj as (j' & aj & Hj' & Hsj).
    apply survivor_Some_inv in Hsj as [Haj Hchj].
    assert (j' < i)%nat.
    { apply lookup_lt_Some in Hj'. rewrite length_take in Hj'. lia. }
    rewrite lookup_take_lt in Hj' by assumption.
    exact (proj2 (Hmin _ _ _ _ _ Hj' Haj Hchj Hcj) ltac:(assumption)).
Qed.

(** C4 (amended). A candidate that returns a fit-parameter entry whose value
    has no [chisq] attribute is kept, with not-a-number recorded as its
    chi-square. Whenever some kept candidate has a chi-square that is a
    number below +infinity, the selector returns the results and figures of
    a candidate whose recorded chi-square is a number: a candidate recorded
    as not-a-number is not chosen over it. *)
Theorem missing_chisq_loses_to_finite analyses experiment_data i a results figures c :
  analyses !! i = Some a ->
  a experiment_data = Return (results, figures) ->
  first_params_chisq results = Some c ->
  is_nan c = false ->
  (c <? infinity)%float = true ->
  (forall pre res post,
      Forall (fun r => String.prefix PARAMS_ENTRY_PREFIX (name r) = false) pre ->
      String.prefix PARAMS_ENTRY_PREFIX (name res) = true ->
      chisq (value res) = None ->
      first_params_chisq (pre ++ res :: post) = Some nan) /\
  exists k ak rk fk ck,
    analyses !! k = Some ak /\
    ak experiment_data = Return (rk, fk) /\
    first_params_chisq rk = Some ck /\
    is_nan ck = false /\
    _run_analysis analyses experiment_data = Return (rk, fk).
Proof.
  intros Hi Ha Hchi Hc Hfin. split.
  - intros pre res post Hpre Hres Hmiss.
    induction Hpre as [|r pre Hr _ IH]; simpl.
    + now rewrite Hres, Hmiss.
    + now rewrite Hr.
  - pose proof (survivor_Some _ _ _ _ _ Ha Hchi) as Hs.
    pose proof (survivors_split _ _ _ _ _ Hi Hs) as Hsplit.
    set (pre := survivors (take i analyses) experiment_data) in *.
    assert (Hk : survivors analyses experiment_data !! length pre
                 = Some (results, figures, c)).
    { rewrite Hsplit, lookup_app_r by lia. now rewrite Nat.sub_diag. }
    destruct (nanargmin_survivors_not_nan _ _ _ _ _ Hk Hc Hfin)
      as (k & rk & fk & ck & Harg & Hlk & Hck).
    destruct (survivors_lookup_inv _ _ _ _ Hlk) as (k' & ak & Hk' & Hsk).
    apply survivor_Some_inv in Hsk as [Hak Hchk].
    exists k', ak, rk, fk, ck. repeat split; try assumption.
    eapply _run_analysis_picks; eauto.
Qed.

End SelectorFacts.

(** *** The examples, evaluated *)

Example run_single_peak_and_failing :
  _run_analysis qiskit_PARAMS_ENTRY_PREFIX [single_peak; failing_fit] tt
  = Return (single_peak_results, ["single peak"]).
Proof. reflexivity. Qed.

Example run_failing_first :
  _run_analysis qiskit_PARAMS_ENTRY_PREFIX [failing_fit; single_peak] tt
  = Return (single_peak_results, ["single peak"]).
Proof. reflexivity. Qed.

Example run_all_missing_chisq :
  _run_analysis qiskit_PARAMS_ENTRY_PREFIX [missing_chisq] tt
  = Raise (ValueError "All-NaN slice encountered").
Proof. reflexivity. Qed.

Lemma no_survivor_returns_empty_witness :
  _run_analysis qiskit_PARAMS_ENTRY_PREFIX [failing_fit; no_fit_entry] tt
  = Return ([], []).
Proof.
  apply (no_survivor_returns_empty qiskit_PARAMS_ENTRY_PREFIX
           [failing_fit; no_fit_entry] tt).
  intros a Ha.
  apply elem_of_cons in Ha as [->|Ha].
  - left. eexists. reflexivity.
  - apply elem_of_cons in Ha as [->|Ha].
    + right. do 2 eexists. split; reflexivity.
    + apply elem_of_nil in Ha. destruct Ha.
Defined.

Lemma selects_first_least_chisq_witness :
  _run_analysis qiskit_PARAMS_ENTRY_PREFIX [single_peak; failing_fit] tt
  = Return (single_peak_results, ["single peak"]).
Proof.
  apply (selects_first_least_chisq qiskit_PARAMS_ENTRY_PREFIX
           [single_peak; failing_fit] tt 0 single_peak
           single_peak_results ["single peak"] 0.02%float);
    try reflexivity.
  intros [|[|j]] aj rj fj cj Haj Hrun Hchi Hnan; simpl in Haj;
    try discriminate; injection Haj as <-.
  - injection Hrun as <- <-. injection Hchi as <-.
    split; [reflexivity | lia].
  - discriminate.
Defined.

Lemma missing_chisq_loses_to_finite_witness :
  exists k ak rk fk ck,
    [missing_chisq; single_peak] !! k = Some ak /\
    ak tt = Return (rk, fk) /\
    first_params_chisq qiskit_PARAMS_ENTRY_PREFIX rk = Some ck /\
    is_nan ck = false /\
    _run_analysis qiskit_PARAMS_ENTRY_PREFIX [missing_chisq; single_peak] tt
    = Return (rk, fk).
Proof.
  apply (missing_chisq_loses_to_finite qiskit_PARAMS_ENTRY_PREFIX
           [missing_chisq; single_peak] tt 1 single_peak
           single_peak_results ["single peak"] 0.02%float);
    reflexivity.
Defined.

(** C2 as stated fails: a candidate whose only chi-square value is
    +infinity is the one with the smallest value, yet the candidate declared
    before it, whose fit object has no [chisq], is returned. *)
Lemma least_value_not_selected :
  ~ (forall (analyses : list (@Analysis unit string)) i a results figures c,
       analyses !! i = Some a ->
       a tt = Return (results, figures) ->
       first_params_chisq qiskit_PARAMS_ENTRY_PREFIX results = Some c ->
       is_nan c = false ->
       (forall j aj rj fj cj,
           analyses !! j = Some aj ->
           aj tt = Return (rj, fj) ->
           first_params_chisq qiskit_PARAMS_ENTRY_PREFIX rj = Some cj ->
           is_nan cj = false ->
           (c <=? cj)%float = true /\ ((j < i)%nat -> (c <? cj)%float = true)) ->
       _run_analysis qiskit_PARAMS_ENTRY_PREFIX analyses tt
       = Return (results, figures)).
Proof.
  intros H.
  specialize (H [missing_chisq; infinite_chisq] 1%nat infinite_chisq
                infinite_chisq_results ["double peak"] infinity
                eq_refl eq_refl eq_refl eq_refl).
  assert (Hrun : _run_analysis qiskit_PARAMS_ENTRY_PREFIX
                   [missing_chisq; infinite_chisq] tt
                 = Return (missing_chisq_results, ["single peak"]))
    by reflexivity.
  rewrite Hrun in H. clear Hrun.
  assert (Hne : Return (missing_chisq_results, ["single peak"])
                <> Return (infinite_chisq_results, ["double peak"]))
    by discriminate.
  apply Hne, H.
  intros [|[|j]] aj rj fj cj Haj Hr Hchi Hnan; simpl in Haj;
    try discriminate; injection Haj as <-.
  - injection Hr as <- <-. injection Hchi as <-. discriminate.
  - injection Hr as <- <-. injection Hchi as <-. split; [reflexivity | lia].
Qed.

(** C4 as stated fails: the candidate without [chisq] is declared first, the
    other candidate has the numeric chi-square +infinity, and the selector
    returns the candidate without [chisq]. *)
Lemma missing_chisq_beats_infinite :
  ~ (forall (analyses : list (@Analysis unit string)) i a results figures c,
       analyses !! i = Some a ->
       a tt = Return (results, figures) ->
       first_params_chisq qiskit_PARAMS_ENTRY_PREFIX results = Some c ->
       is_nan c = false ->
       exists k ak rk fk ck,
         analyses !! k = Some ak /\
         ak tt = Return (rk, fk) /\
         first_params_chisq qiskit_PARAMS_ENTRY_PREFIX rk = Some ck /\
         is_nan ck = false /\
         _run_analysis qiskit_PARAMS_ENTRY_PREFIX analyses tt = Return (rk, fk)).
Proof.
  intros H.
  destruct (H [missing_chisq; infinite_chisq] 1%nat infinite_chisq
              infinite_chisq_results ["double peak"] infinity
              eq_refl eq_refl eq_refl eq_refl)
    as (k & ak & rk & fk & ck & _ & _ & Hchi & Hnan & Hrun).
  change (_run_analysis qiskit_PARAMS_ENTRY_PREFIX
            [missing_chisq; infinite_chisq] tt)
    with (@Return (list AnalysisResultData * list string)
            (missing_chisq_results, ["single peak"])) in Hrun.
  injection Hrun as <- <-.
  injection Hchi as <-. discriminate.
Qed.

End MultiAnalysesFacts.

(** ** More on the selector: failures, provenance, isolation *)

Module MultiAnalysesMore.
Import FloatOrder MultiAnalyses NanArgMinFacts MultiAnalysesFacts.

Section SelectorMore.

Variable PARAMS_ENTRY_PREFIX : string.
Context {ExperimentData Figure : Type}.

Abbreviation Analysis := (@Analysis ExperimentData Figure).
Abbreviation survivors := (survivors PARAMS_ENTRY_PREFIX).
Abbreviation survivor := (survivor PARAMS_ENTRY_PREFIX).
Abbreviation _run_analysis := (_run_analysis PARAMS_ENTRY_PREFIX).
Abbreviation first_params_chisq := (first_params_chisq PARAMS_ENTRY_PREFIX).

Implicit Types (analyses : list Analysis) (experiment_data : ExperimentData).

Lemma _run_analysis_of_survivors analyses1 analyses2 experiment_data :
  survivors analyses1 experiment_data = survivors analyses2 experiment_data ->
  _run_analysis analyses1 experiment_data = _run_analysis analyses2 experiment_data.
Proof.
  intros Heq. unfold MultiAnalyses._run_analysis.
  rewrite !collect_survivors. cbv zeta. now rewrite Heq.
Qed.

Lemma survivor_None_iff experiment_data (a : Analysis) :
  survivor experiment_data a = None <->
  (exists e, a experiment_data = Raise e) \/
  (exists results figures, a experiment_data = Return (results, figures) /\
     first_params_chisq results = None).
Proof.
  unfold MultiAnalyses.survivor.
  destruct (a experiment_data) as [[results figures]|e].
  - destruct (first_params_chisq results) as [c0|] eqn:E; split.
    + discriminate.
    + intros [[e He]|(r1 & f1 & [= <- <-] & Hn)]; congruence.
    + intros _. right. eauto.
    + reflexivity.
  - split; [intros _; left; eauto | reflexivity].
Qed.

(** A candidate that raises, or returns no fit-parameter entry, can be
    taken out of the list, wherever it stands, without changing what the
    selector returns or raises. *)
Theorem dropped_candidate_is_invisible analyses1 a analyses2 experiment_data :
  (exists e, a experiment_data = Raise e) \/
  (exists results figures, a experiment_data = Return (results, figures) /\
     first_params_chisq results = None) ->
  _run_analysis (analyses1 ++ a :: analyses2) experiment_data
  = _run_analysis (analyses1 ++ analyses2) experiment_data.
Proof.
  intros Hdrop. apply survivor_None_iff in Hdrop.
  apply _run_analysis_of_survivors.
  unfold MultiAnalyses.survivors. rewrite !omap_app. simpl. now rewrite Hdrop.
Qed.

(** When at least one candidate survives and every survivor's chi-square is
    not-a-number, the selector does not return: [nanargmin] raises
    [ValueError]. *)
Theorem all_nan_survivors_raise analyses experiment_data i a results figures c :
  analyses !! i = Some a ->
  a experiment_data = Return (results, figures) ->
  first_params_chisq results = Some c ->
  (forall j aj rj fj cj,
      analyses !! j = Some aj ->
      aj experiment_data = Return (rj, fj) ->
      first_params_chisq rj = Some cj ->
      is_nan cj = true) ->
  _run_analysis analyses experiment_data
  = Raise (ValueError "All-NaN slice encountered").
Proof.
  intros Hi Ha Hchi Hall.
  pose proof (survivor_Some _ _ _ _ _ _ Ha Hchi) as Hs.
  pose proof (survivors_split _ _ _ _ _ _ Hi Hs) as Hsplit.
  unfold MultiAnalyses._run_analysis. rewrite collect_survivors. cbv zeta.
  cbn [chisqs all_results all_figures].
  assert (Hnan : forallb is_nan (map snd (survivors analyses experiment_data)) = true).
  { apply forallb_forall. intros x Hx. apply in_map_iff in Hx as ([[rx fx] cx] & <- & Hin).
    apply list_elem_of_In in Hin. apply list_elem_of_lookup_1 in Hin as [k Hk].
    apply survivors_lookup_inv in Hk as (j & aj & Hj & Hsj).
    apply survivor_Some_inv in Hsj as [Haj Hcj]. simpl. eauto. }
  destruct (map snd (survivors analyses experiment_data)) as [|c0 cs] eqn:Hm.
  { rewrite Hsplit, map_app in Hm. simpl in Hm.
    destruct (map snd _) in Hm; discriminate. }
  unfold nanargmin. rewrite Hnan. reflexivity.
Qed.

(** Whatever the selector returns comes whole from one candidate: either no
    candidate survived and both lists are empty, or some candidate that
    returned a fit-parameter entry returned exactly these results together
    with exactly these figures. *)
Theorem returned_pair_has_one_origin analyses experiment_data results figures :
  _run_analysis analyses experiment_data = Return (results, figures) ->
  (results = [] /\ figures = [] /\
   forall a, a ∈ analyses -> survivor experiment_data a = None) \/
  (exists i a c,
      analyses !! i = Some a /\
      a experiment_data = Return (results, figures) /\
      first_params_chisq results = Some c).
Proof.
  unfold MultiAnalyses._run_analysis. rewrite collect_survivors. cbv zeta.
  cbn [chisqs all_results all_figures].
  destruct (survivors analyses experiment_data) as [|t s] eqn:Hs.
  - intros [= <- <-]. left. split; [reflexivity|]. split; [reflexivity|].
    intros a Ha. destruct (survivor experiment_data a) as [t|] eqn:Ht; [|reflexivity].
    exfalso. assert (Hin : t ∈ survivors analyses experiment_data).
    { apply list_elem_of_omap. eauto. }
    rewrite Hs in Hin. apply elem_of_nil in Hin. exact Hin.
  - rewrite <- Hs. assert (Hne : map snd (survivors analyses experiment_data) <> []).
    { rewrite Hs. discriminate. }
    destruct (map snd (survivors analyses experiment_data)) as [|c0 cs] eqn:Hm;
      [congruence|]. rewrite <- Hm. clear Hne.
    destruct (nanargmin (map snd (survivors analyses experiment_data))) as [k|e];
      [|discriminate].
    unfold mbind, PyResult_bind. rewrite !list_lookup_fmap.
    destruct (survivors analyses experiment_data !! k) as [[[r f] c]|] eqn:Hk;
      simpl; [|discriminate].
    intros [= <- <-]. right.
    apply survivors_lookup_inv in Hk as (j & aj & Hj & Hsj).
    apply survivor_Some_inv in Hsj as [Haj Hcj].
    exists j, aj, c. auto.
Qed.

End SelectorMore.

Lemma dropped_candidate_is_invisible_witness :
  MultiAnalyses._run_analysis qiskit_PARAMS_ENTRY_PREFIX
    ([missing_chisq] ++ failing_fit :: [single_peak]) tt
  = MultiAnalyses._run_analysis qiskit_PARAMS_ENTRY_PREFIX
      ([missing_chisq] ++ [single_peak]) tt.
Proof.
  apply (dropped_candidate_is_invisible qiskit_PARAMS_ENTRY_PREFIX
           [missing_chisq] failing_fit [single_peak] tt).
  left. eexists. reflexivity.
Defined.

Lemma all_nan_survivors_raise_witness :
  MultiAnalyses._run_analysis qiskit_PARAMS_ENTRY_PREFIX
    [failing_fit; missing_chisq] tt
  = Raise (ValueError "All-NaN slice encountered").
Proof.
  apply (all_nan_survivors_raise qiskit_PARAMS_ENTRY_PREFIX
           [failing_fit; missing_chisq] tt 1 missing_chisq
           missing_chisq_results ["single peak"] nan);
    try reflexivity.
  intros [|[|j]] aj rj fj cj Haj Hrun Hchi; simpl in Haj;
    try discriminate; injection Haj as <-.
  - discriminate.
  - injection Hrun as <- <-. injection Hchi as <-. reflexivity.
Defined.

Lemma returned_pair_has_one_origin_witness :
  (single_peak_results = [] /\ ["single peak"] = ([] : list string) /\
   forall a, a ∈ [failing_fit; single_peak] ->
             MultiAnalyses.survivor qiskit_PARAMS_ENTRY_PREFIX tt a = None) \/
  (exists i a c,
      [failing_fit; single_peak] !! i = Some a /\
      a tt = Return (single_peak_results, ["single peak"]) /\
      MultiAnalyses.first_params_chisq qiskit_PARAMS_ENTRY_PREFIX single_peak_results
      = Some c).
Proof.
  apply (returned_pair_has_one_origin qiskit_PARAMS_ENTRY_PREFIX
           [failing_fit; single_peak] tt single_peak_results ["single peak"]).
  reflexivity.
Defined.

End MultiAnalysesMore.

(** ** The benchmarking sequence closes to the identity *)

Module EFStandardRBFacts.
Import EFStandardRB.

Section GeneratorFacts.

Context {G Rng Params : Type} `{CliffordLaws G}.
Variable random_clifford : Rng -> G * Rng.
Variable _to_parameters : G -> Params.

Lemma sample_loop_yielded n : forall composed rng,
  fst (fst (sample_loop random_clifford _to_parameters n composed rng))
  = map _to_parameters (sampled random_clifford n rng).
Proof.
  induction n as [|n IH]; intros composed rng; simpl; [reflexivity|].
  destruct (random_clifford rng) as [elm rng'].
  specialize (IH (compose composed elm) rng').
  destruct (sample_loop random_clifford _to_parameters n (compose composed elm) rng')
    as [[yielded total] rng''].
  simpl in *. now rewrite IH.
Qed.

Lemma sample_loop_total n : forall composed rng,
  snd (fst (sample_loop random_clifford _to_parameters n composed rng))
  = fold_left compose (sampled random_clifford n rng) composed.
Proof.
  induction n as [|n IH]; intros composed rng; simpl; [reflexivity|].
  destruct (random_clifford rng) as [elm rng'].
  specialize (IH (compose composed elm) rng').
  destruct (sample_loop random_clifford _to_parameters n (compose composed elm) rng')
    as [[yielded total] rng''].
  simpl in *. exact IH.
Qed.

Lemma compose_all_snoc (elms : list G) (g : G) :
  compose_all (elms ++ [g]) = compose (compose_all elms) g.
Proof. unfold compose_all. now rewrite fold_left_app. Qed.

(** C1. In full-group mode, for every length of at least 1 and every state
    of the random generator, what is yielded is the parameters of each
    sampled element, in order, followed by the parameters of the adjoint of
    their left-to-right composition; and composing the sampled elements with
    that closing element gives the identity Clifford (the identity matrix up
    to global phase). *)
Theorem generated_sequence_composes_to_identity (length : Z) (rng : Rng) :
  1 <= length ->
  let elms := sampled random_clifford (Z.to_nat length) rng in
  let closing := adjoint (compose_all elms) in
  fst (_generate_sequence random_clifford _to_parameters length rng)
    = map _to_parameters (elms ++ [closing])
  /\ compose_all (elms ++ [closing]) = identity.
Proof.
  intros Hlen elms closing. split.
  - unfold _generate_sequence.
    pose proof (sample_loop_yielded (Z.to_nat length) identity rng) as Hy.
    pose proof (sample_loop_total (Z.to_nat length) identity rng) as Ht.
    destruct (sample_loop random_clifford _to_parameters (Z.to_nat length) identity rng)
      as [[yielded total] rng'].
    simpl in Hy, Ht. subst yielded total.
    replace (0 <? length) with true by (symmetry; apply Z.ltb_lt; lia).
    simpl. now rewrite map_app.
  - subst closing. rewrite compose_all_snoc. apply compose_adjoint_r.
Qed.

End GeneratorFacts.

Section EmptySequence.

Context {G Rng Params : Type} `{CliffordOps G}.
Variable random_clifford : Rng -> G * Rng.
Variable _to_parameters : G -> Params.

(** C8 (amended). In full-group mode with length 0 the generator yields
    nothing at all, whatever the state of the random generator, and leaves
    that state as it found it: the guard [length > 0] skips the closing
    element. *)
Theorem zero_length_sequence_is_empty (rng : Rng) :
  _generate_sequence random_clifford _to_parameters 0 rng = ([], rng).
Proof. reflexivity. Qed.

End EmptySequence.

(** *** The concrete group *)

Lemma Clifford1_compose_assoc (a b c : Clifford1) :
  compose (compose a b) c = compose a (compose b c).
Proof.
  destruct a as [[] [] [] []], b as [[] [] [] []], c as [[] [] [] []];
    reflexivity.
Qed.

#[global] Instance Clifford1_laws : CliffordLaws Clifford1.
Proof.
  split.
  - exact Clifford1_compose_assoc.
  - intros [[] [] [] []]; reflexivity.
  - intros [[] [] [] []]; reflexivity.
  - intros [[] [] [] []]; reflexivity.
Qed.

Example hadamard_is_an_involution : compose clifford_H clifford_H = identity.
Proof. reflexivity. Qed.

Example phase_gate_has_order_four :
  compose clifford_S clifford_S <> identity /\
  compose_all [clifford_S; clifford_S; clifford_S; clifford_S] = identity.
Proof. split; [discriminate | reflexivity]. Qed.

Lemma generated_sequence_composes_to_identity_witness :
  let elms := sampled lcg_random_clifford 3 123%N in
  let closing := adjoint (compose_all elms) in
  fst (_generate_sequence lcg_random_clifford (fun g : Clifford1 => g) 3 123%N)
    = map (fun g : Clifford1 => g) (elms ++ [closing])
  /\ compose_all (elms ++ [closing]) = identity.
Proof.
  apply (generated_sequence_composes_to_identity
           lcg_random_clifford (fun g : Clifford1 => g) 3 123%N).
  lia.
Defined.

(** C8 as stated fails: with length 0 the sequence is not the one-element
    sequence holding the decomposition of the adjoint of the identity. *)
Lemma zero_length_has_no_closing_element :
  fst (_generate_sequence lcg_random_clifford (fun g : Clifford1 => g) 0 123%N)
  <> [adjoint (identity : Clifford1)].
Proof. discriminate. Qed.

(** *** Transpile options *)

(** C10. For every EF randomized-benchmarking experiment, of either class
    and in any state, [set_transpile_options] with any fields raises a
    [RuntimeError] naming the class, and the experiment is left as it was. *)
Theorem set_transpile_options_raises (self : Experiment)
  (fields : list (string * string)) :
  exists msg,
    set_transpile_options self fields = (Raise (RuntimeError msg), self) /\
    String.prefix (class_name (exp_class self)) msg = true.
Proof.
  eexists. split; [reflexivity|].
  destruct (exp_class self); reflexivity.
Qed.

End EFStandardRBFacts.

(** ** More on the benchmarking circuits *)

Module EFRBCircuitsFacts.
Import EFStandardRB EFRBCircuits.

Section StandardGenerator.

Context {G Rng Params : Type} `{CliffordOps G}.
Variable random_clifford : Rng -> G * Rng.
Variable _to_parameters : G -> Params.

Lemma sample_loop_length n : forall composed rng,
  length (fst (fst (sample_loop random_clifford _to_parameters n composed rng))) = n.
Proof.
  induction n as [|n IH]; intros composed rng; simpl; [reflexivity|].
  destruct (random_clifford rng) as [elm rng'].
  specialize (IH (compose composed elm) rng').
  destruct (sample_loop random_clifford _to_parameters n (compose composed elm) rng')
    as [[yielded total] rng''].
  simpl in *. now rewrite IH.
Qed.

Lemma sample_loop_rng n : forall composed rng,
  snd (sample_loop random_clifford _to_parameters n composed rng)
  = advance random_clifford n rng.
Proof.
  induction n as [|n IH]; intros composed rng; simpl; [reflexivity|].
  destruct (random_clifford rng) as [elm rng'] eqn:Hr.
  specialize (IH (compose composed elm) rng').
  destruct (sample_loop random_clifford _to_parameters n (compose composed elm) rng')
    as [[yielded total] rng''].
  simpl in *. exact IH.
Qed.

(** In full-group mode the generator yields [length + 1] parameter tuples
    when [length] is at least 1 and none when it is 0 or negative, and it
    leaves the random generator in the state reached after exactly
    [max length 0] draws: the closing element uses no randomness. *)
Theorem generate_sequence_length_and_draws (length : Z) (rng : Rng) :
  List.length (fst (_generate_sequence random_clifford _to_parameters length rng))
    = (if (0 <? length)%Z then Z.to_nat length + 1 else 0)%nat /\
  snd (_generate_sequence random_clifford _to_parameters length rng)
    = advance random_clifford (Z.to_nat length) rng.
Proof.
  unfold _generate_sequence.
  pose proof (sample_loop_length (Z.to_nat length) identity rng) as Hl.
  pose proof (sample_loop_rng (Z.to_nat length) identity rng) as Hr.
  destruct (sample_loop random_clifford _to_parameters (Z.to_nat length) identity rng)
    as [[yielded total] rng'].
  simpl in Hl, Hr.
  destruct (0 <? length) eqn:E; simpl.
  - rewrite length_app. simpl. split; [lia | exact Hr].
  - apply Z.ltb_ge in E. split; [|exact Hr].
    rewrite Hl. lia.
Qed.

End StandardGenerator.

Section CircuitFacts.

Context {Rng Params : Type}.
Variable _generate_sequence : Z -> Rng -> list Params * Rng.
Variable _sequence_to_instructions : Params -> list Instruction.

Abbreviation build_circuit :=
  (build_circuit _generate_sequence _sequence_to_instructions).
Abbreviation circuits_of_sample :=
  (circuits_of_sample _generate_sequence _sequence_to_instructions).
Abbreviation circuits_of_samples :=
  (circuits_of_samples _generate_sequence _sequence_to_instructions).

Lemma build_circuit_metadata sample_ind length rng :
  xval (fst (build_circuit sample_ind length rng)) = length /\
  sample (fst (build_circuit sample_ind length rng)) = sample_ind.
Proof.
  unfold EFRBCircuits.build_circuit.
  destruct (_generate_sequence length rng). split; reflexivity.
Qed.

Lemma circuits_of_sample_lookup sample_ind lengths : forall rng,
  List.length (fst (circuits_of_sample sample_ind lengths rng)) = List.length lengths /\
  forall j L, lengths !! j = Some L ->
    exists c, fst (circuits_of_sample sample_ind lengths rng) !! j = Some c /\
              xval c = L /\ sample c = sample_ind.
Proof.
  induction lengths as [|L0 lengths IH]; intros rng; simpl.
  - split; [reflexivity|]. intros j L Hj. rewrite lookup_nil in Hj. discriminate.
  - pose proof (build_circuit_metadata sample_ind L0 rng) as [Hx Hs].
    destruct (build_circuit sample_ind L0 rng) as [circ rng'].
    destruct (IH rng') as [Hlen Hlk].
    destruct (circuits_of_sample sample_ind lengths rng') as [circs rng''].
    simpl in *. split; [now rewrite Hlen|].
    intros [|j] L Hj; simpl in *.
    + injection Hj as <-. exists circ. auto.
    + apply Hlk. exact Hj.
Qed.

Lemma circuits_of_samples_lookup n lengths : forall start rng,
  List.length (fst (circuits_of_samples (seq start n) lengths rng))
    = (n * List.length lengths)%nat /\
  forall i j L, (i < n)%nat -> lengths !! j = Some L ->
    exists c,
      fst (circuits_of_samples (seq start n) lengths rng)
        !! (i * List.length lengths + j)%nat = Some c /\
      xval c = L /\ sample c = (start + i)%nat.
Proof.
  induction n as [|n IH]; intros start rng; simpl.
  - split; [reflexivity|]. intros i j L Hi. lia.
  - destruct (circuits_of_sample_lookup start lengths rng) as [Hlen Hlk].
    destruct (circuits_of_sample start lengths rng) as [circs rng'].
    destruct (IH (S start) rng') as [Hlen' Hlk'].
    destruct (circuits_of_samples (seq (S start) n) lengths rng') as [more rng''].
    simpl in *. split; [rewrite length_app; lia|].
    intros [|i] j L Hi Hj.
    + destruct (Hlk j L Hj) as (c & Hc & Hx & Hs).
      exists c. simpl. rewrite lookup_app_l by (eapply lookup_lt_Some; eauto).
      rewrite Nat.add_0_r. auto.
    + destruct (Hlk' i j L ltac:(lia) Hj) as (c & Hc & Hx & Hs).
      exists c. split; [|split; [assumption | lia]].
      rewrite lookup_app_r by (simpl; lia).
      rewrite <- Hc. f_equal. simpl. lia.
Qed.

Variable default_rng : Z -> Rng.
Variable linspace_int : Z -> Z -> Z -> list Z.

Abbreviation circuits :=
  (circuits _generate_sequence _sequence_to_instructions default_rng linspace_int).

(** [circuits] returns one circuit per sample and length, sample by sample
    and, within a sample, in the order of the lengths: the circuit at
    position [i * len(lengths) + j] carries the metadata [sample = i] and
    [xval = lengths[j]]. *)
Theorem circuits_are_indexed_by_sample_and_length (opt : ExperimentOptions)
  (given : list Z) (i j : nat) (L : Z) :
  lengths opt = Some given ->
  (i < Z.to_nat (num_samples opt))%nat ->
  given !! j = Some L ->
  List.length (circuits opt)
    = (Z.to_nat (num_samples opt) * List.length given)%nat /\
  exists c,
    circuits opt !! (i * List.length given + j)%nat = Some c /\
    xval c = L /\ sample c = i.
Proof.
  intros Hgiven Hi Hj. unfold EFRBCircuits.circuits. rewrite Hgiven.
  destruct (circuits_of_samples_lookup (Z.to_nat (num_samples opt)) given 0
              (default_rng (seed opt))) as [Hlen Hlk].
  split; [exact Hlen|].
  destruct (Hlk i j L Hi Hj) as (c & Hc & Hx & Hs).
  exists c. auto.
Qed.

(** Every circuit is built by the loop body for its own length. *)
Lemma circuits_of_sample_elem sample_ind lengths : forall rng c,
  c ∈ fst (circuits_of_sample sample_ind lengths rng) ->
  exists rng0, c = fst (build_circuit sample_ind (xval c) rng0).
Proof.
  induction lengths as [|L0 lengths IH]; intros rng c Hc; simpl in Hc.
  - apply elem_of_nil in Hc. destruct Hc.
  - pose proof (build_circuit_metadata sample_ind L0 rng) as [Hx _].
    destruct (build_circuit sample_ind L0 rng) as [circ rng'] eqn:Hb.
    specialize (IH rng').
    destruct (circuits_of_sample sample_ind lengths rng') as [circs rng''].
    simpl in *. apply elem_of_cons in Hc as [->|Hc].
    + exists rng. rewrite Hx, Hb. reflexivity.
    + now apply IH.
Qed.

Lemma circuits_of_samples_elem sample_inds lengths : forall rng c,
  c ∈ fst (circuits_of_samples sample_inds lengths rng) ->
  exists sample_ind rng0, c = fst (build_circuit sample_ind (xval c) rng0).
Proof.
  induction sample_inds as [|s sample_inds IH]; intros rng c Hc; simpl in Hc.
  - apply elem_of_nil in Hc. destruct Hc.
  - pose proof (circuits_of_sample_elem s lengths rng) as Hs.
    destruct (circuits_of_sample s lengths rng) as [circs rng'].
    specialize (IH rng').
    destruct (circuits_of_samples sample_inds lengths rng') as [more rng''].
    simpl in *. apply elem_of_app in Hc as [Hc|Hc].
    + destruct (Hs c Hc) as [rng0 H0]. eauto.
    + now apply IH.
Qed.

Lemma circuits_elem opt c :
  c ∈ circuits opt ->
  exists sample_ind rng0, c = fst (build_circuit sample_ind (xval c) rng0).
Proof. unfold EFRBCircuits.circuits. apply circuits_of_samples_elem. Qed.

(** Counting in a circuit whose every step contributes the same number. *)
Lemma count_app p l1 l2 : count p (l1 ++ l2) = (count p l1 + count p l2)%nat.
Proof. unfold count. now rewrite List.filter_app, length_app. Qed.

Lemma count_steps p k (sequence : list Params) :
  (forall params, count p (_sequence_to_instructions params ++ [Barrier]) = k) ->
  count p (flat_map (fun params => _sequence_to_instructions params ++ [Barrier])
             sequence)
  = (k * List.length sequence)%nat.
Proof.
  intros Hk. induction sequence as [|x sequence IH]; simpl.
  - now rewrite Nat.mul_0_r.
  - rewrite count_app, IH, Hk, Nat.mul_succ_r. lia.
Qed.

End CircuitFacts.

Lemma count_cons p x l :
  count p (x :: l) = ((if p x then 1 else 0) + count p l)%nat.
Proof. unfold count. simpl. now destruct (p x). Qed.

Lemma count_all (l : list Instruction) : count (fun _ => true) l = List.length l.
Proof. unfold count. induction l; simpl; congruence. Qed.

Section StandardCircuits.

Context {G Rng : Type} `{CliffordOps G}.
Variable random_clifford : Rng -> G * Rng.
Variable _to_parameters : G -> float * float * float.
Variable default_rng : Z -> Rng.
Variable linspace_int : Z -> Z -> Z -> list Z.

(** In full-group mode the number of pulses of a circuit depends on its
    length alone, not on the elements drawn: with [n = length + 1] steps
    for a length of at least 1 (and [n = 0] otherwise) every circuit holds
    [2 n] half-rotation gates, [3 n] phase gates and [n] barriers between
    its leading X and its closing X and measurement. *)
Theorem standard_circuit_has_fixed_pulse_count (opt : ExperimentOptions) (c : Circuit) :
  c ∈ circuits (_generate_sequence random_clifford _to_parameters)
        standard_sequence_to_instructions default_rng linspace_int opt ->
  let n := (if (0 <? xval c)%Z then Z.to_nat (xval c) + 1 else 0)%nat in
  count is_SX12 (data c) = (2 * n)%nat /\
  count is_RZ12 (data c) = (3 * n)%nat /\
  count is_Barrier (data c) = n /\
  count is_X12 (data c) = 0%nat /\
  List.length (data c) = (6 * n + 3)%nat.
Proof.
  intros Hc n. apply circuits_elem in Hc as (sample_ind & rng0 & Hc).
  unfold build_circuit in Hc.
  pose proof (generate_sequence_length_and_draws random_clifford _to_parameters
                (xval c) rng0) as [Hlen _].
  destruct (_generate_sequence random_clifford _to_parameters (xval c) rng0)
    as [sequence rng'].
  simpl in Hlen, Hc. fold n in Hlen. rewrite Hc. cbn [data].
  rewrite <- count_all, !count_cons, !count_app.
  rewrite !(count_steps standard_sequence_to_instructions _ 2 sequence)
    by (intros [[theta phi] lam]; reflexivity).
  rewrite !(count_steps standard_sequence_to_instructions _ 3 sequence)
    by (intros [[theta phi] lam]; reflexivity).
  rewrite !(count_steps standard_sequence_to_instructions _ 1 sequence)
    by (intros [[theta phi] lam]; reflexivity).
  rewrite !(count_steps standard_sequence_to_instructions _ 0 sequence)
    by (intros [[theta phi] lam]; reflexivity).
  rewrite !(count_steps standard_sequence_to_instructions _ 6 sequence)
    by (intros [[theta phi] lam]; reflexivity).
  rewrite Hlen. unfold count. simpl. lia.
Qed.

End StandardCircuits.

Section PolarCircuits.

Context {Rng : Type}.
Variable uniform2 : Rng -> (float * float) * Rng.
Variable default_rng : Z -> Rng.
Variable linspace_int : Z -> Z -> Z -> list Z.

Lemma polar_loop_length n : forall rng,
  List.length (fst (polar_loop uniform2 n rng)) = n.
Proof.
  induction n as [|n IH]; intros rng; simpl; [reflexivity|].
  destruct (uniform2 rng) as [angles rng']. specialize (IH rng').
  destruct (polar_loop uniform2 n rng') as [yielded rng''].
  simpl in *. now rewrite IH.
Qed.

(** In polar mode a circuit of length [L] holds exactly [2 L] full-rotation
    gates, [3 L] phase gates and [L] barriers ([L] counted as 0 when
    negative) and no half-rotation gate: no closing step is appended. *)
Theorem polar_circuit_has_no_closing_step (opt : ExperimentOptions) (c : Circuit) :
  c ∈ circuits (polar_generate_sequence uniform2)
        polar_sequence_to_instructions default_rng linspace_int opt ->
  let n := Z.to_nat (xval c) in
  count is_X12 (data c) = (2 * n)%nat /\
  count is_RZ12 (data c) = (3 * n)%nat /\
  count is_Barrier (data c) = n /\
  count is_SX12 (data c) = 0%nat /\
  List.length (data c) = (6 * n + 3)%nat.
Proof.
  intros Hc n. apply circuits_elem in Hc as (sample_ind & rng0 & Hc).
  unfold build_circuit, polar_generate_sequence in Hc.
  pose proof (polar_loop_length (Z.to_nat (xval c)) rng0) as Hlen.
  destruct (polar_loop uniform2 (Z.to_nat (xval c)) rng0) as [sequence rng'].
  simpl in Hlen, Hc. fold n in Hlen. rewrite Hc. cbn [data].
  rewrite <- count_all, !count_cons, !count_app.
  rewrite !(count_steps polar_sequence_to_instructions _ 2 sequence)
    by (intros [angle1 angle2]; reflexivity).
  rewrite !(count_steps polar_sequence_to_instructions _ 3 sequence)
    by (intros [angle1 angle2]; reflexivity).
  rewrite !(count_steps polar_sequence_to_instructions _ 1 sequence)
    by (intros [angle1 angle2]; reflexivity).
  rewrite !(count_steps polar_sequence_to_instructions _ 0 sequence)
    by (intros [angle1 angle2]; reflexivity).
  rewrite !(count_steps polar_sequence_to_instructions _ 6 sequence)
    by (intros [angle1 angle2]; reflexivity).
  rewrite Hlen. unfold count. simpl. lia.
Qed.

End PolarCircuits.

Lemma circuits_are_indexed_by_sample_and_length_witness :
  List.length example_standard_circuits = (Z.to_nat 2 * 3)%nat /\
  exists c,
    example_standard_circuits !! (1 * 3 + 2)%nat = Some c /\
    xval c = 5 /\ sample c = 1%nat.
Proof.
  apply (circuits_are_indexed_by_sample_and_length
           (_generate_sequence lcg_random_clifford example_parameters)
           standard_sequence_to_instructions Z.to_N (fun _ _ _ => [])
           example_options [1; 3; 5] 1 2 5).
  - reflexivity.
  - simpl. lia.
  - reflexivity.
Defined.

Lemma standard_circuit_has_fixed_pulse_count_witness :
  exists c,
    example_standard_circuits !! 1%nat = Some c /\
    xval c = 3 /\
    count is_SX12 (data c) = 8%nat /\
    List.length (data c) = 27%nat.
Proof.
  destruct (example_standard_circuits !! 1%nat) as [c|] eqn:Hc;
    [|vm_compute in Hc; discriminate].
  exists c. split; [reflexivity|].
  assert (Hx : xval c = 3).
  { vm_compute in Hc. injection Hc as <-. reflexivity. }
  split; [exact Hx|].
  pose proof (standard_circuit_has_fixed_pulse_count
                lcg_random_clifford example_parameters Z.to_N (fun _ _ _ => [])
                example_options c (list_elem_of_lookup_2 _ _ _ Hc)) as Hcount.
  rewrite Hx in Hcount. simpl in Hcount.
  destruct Hcount as (Hsx & _ & _ & _ & Hlen). split; assumption.
Defined.

Lemma polar_circuit_has_no_closing_step_witness :
  exists c,
    example_polar_circuits !! 1%nat = Some c /\
    xval c = 3 /\
    count is_X12 (data c) = 6%nat /\
    count is_SX12 (data c) = 0%nat /\
    List.length (data c) = 21%nat.
Proof.
  destruct (example_polar_circuits !! 1%nat) as [c|] eqn:Hc;
    [|vm_compute in Hc; discriminate].
  exists c. split; [reflexivity|].
  assert (Hx : xval c = 3).
  { vm_compute in Hc. injection Hc as <-. reflexivity. }
  split; [exact Hx|].
  pose proof (polar_circuit_has_no_closing_step
                example_uniform2 Z.to_N (fun _ _ _ => [])
                example_options c (list_elem_of_lookup_2 _ _ _ Hc)) as Hcount.
  rewrite Hx in Hcount. simpl in Hcount.
  destruct Hcount as (Hx12 & _ & _ & Hsx & Hlen). repeat split; assumption.
Defined.

End EFRBCircuitsFacts.

(** ** Store construction when a qubit has no control channel *)

Module CalibrationsFacts.
Import Calibrations.

(** The scan itself handles the gap: qubit 1 of [one_way_backend] has no
    row in the coupling map, is blacklisted with a warning, and qubit 0
    keeps its entry. *)
Example scan_one_way_backend :
  scan_channels one_way_backend =
  Return {| scan_map := {[ [0] := [ControlChannel 0] ]};
            scan_blacklist := [1];
            scan_warnings := [warning_message 1] |}.
Proof. vm_compute. reflexivity. Qed.

(** C9 fails on the code: after the scan, [complete_inst_map] looks up the
    control channel of every qubit, blacklisted or not, and the lookup for
    the blacklisted qubit 1 raises [KeyError]; [from_backend] does not
    return a calibrations object. *)
Theorem from_backend_one_way_raises :
  from_backend one_way_backend =
  (Raise (KeyError "(1,)"), [warning_message 1]).
Proof. vm_compute. reflexivity. Qed.

Example from_backend_two_way_returns :
  exists cals,
    from_backend two_way_backend = (Return cals, []) /\
    _control_channel_map cals !! [0] = Some [ControlChannel 0] /\
    _control_channel_map cals !! [1] = Some [ControlChannel 1] /\
    blacklist cals = [].
Proof. eexists. vm_compute. repeat split; reflexivity. Qed.

(** [add_rz12] never changes the control-channel map, so a key missing
    before the second loop of [complete_inst_map] is still missing when the
    loop reaches it. *)
Lemma add_rz12_keeps_map self qubit self' :
  add_rz12 self qubit = Return self' ->
  _control_channel_map self' = _control_channel_map self.
Proof.
  unfold add_rz12.
  destruct (_control_channel_map self !! [qubit]) as [[|c l]|];
    try discriminate.
  now intros [= <-].
Qed.

Lemma for_each_add_rz12_missing qubits : forall self qubit,
  qubit ∈ qubits ->
  _control_channel_map self !! [qubit] = None ->
  exists e, for_each add_rz12 qubits self = Raise e.
Proof.
  induction qubits as [|q qubits IH]; intros self qubit Hin Hmiss.
  - apply elem_of_nil in Hin. destruct Hin.
  - simpl. destruct (add_rz12 self q) as [self'|e] eqn:Hq.
    + apply elem_of_cons in Hin as [->|Hin].
      * unfold add_rz12 in Hq. rewrite Hmiss in Hq. discriminate.
      * apply (IH self' qubit Hin).
        rewrite (add_rz12_keeps_map _ _ _ Hq). exact Hmiss.
    + exists e. reflexivity.
Qed.

Lemma for_each_preserves {S A B : Type} (body : S -> A -> PyResult S) (f : S -> B) :
  (forall s x s', body s x = Return s' -> f s' = f s) ->
  forall xs s s', for_each body xs s = Return s' -> f s' = f s.
Proof.
  intros Hbody. induction xs as [|x xs IH]; intros s s' Hrun; simpl in Hrun.
  - now injection Hrun as <-.
  - destruct (body s x) as [s1|e] eqn:Hx; [|discriminate].
    simpl in Hrun. rewrite (IH _ _ Hrun). eauto.
Qed.

Lemma copy_gate_keeps_map backend qubit self gate self' :
  copy_gate backend qubit self gate = Return self' ->
  _control_channel_map self' = _control_channel_map self.
Proof.
  unfold copy_gate. destruct (backend_inst_map backend !! (gate, [qubit]));
    now intros [= <-].
Qed.

Lemma scan_qubit_scanned backend done st x st' :
  scanned done st -> x ∉ done ->
  scan_qubit backend st x = Return st' ->
  scanned (done ++ [x]) st'.
Proof.
  intros [Hbl Hmap] Hx Hscan.
  assert (Hfresh : scan_map st !! [x] = None).
  { destruct (scan_map st !! [x]) eqn:E; [|reflexivity].
    exfalso. apply Hx, Hmap. now rewrite E. }
  assert (Hblack :
    scanned (done ++ [x])
      {| scan_map := scan_map st; scan_blacklist := scan_blacklist st ++ [x];
         scan_warnings := scan_warnings st ++ [warning_message x] |}).
  { split; simpl.
    - intros q Hq. apply elem_of_app in Hq as [Hq|Hq].
      + destruct (Hbl q Hq). split; [apply elem_of_app; now left | assumption].
      + apply list_elem_of_singleton in Hq as ->.
        split; [apply elem_of_app; right; apply list_elem_of_singleton; reflexivity
               | assumption].
    - intros q Hq. apply elem_of_app. left. now apply Hmap. }
  unfold scan_qubit in Hscan.
  destruct (coupling_map backend) as [|row0 rows]; [discriminate|].
  destruct (filter _ (row0 :: rows)) as [|row _]; [now injection Hscan as <-|].
  destruct (control_channel backend row) as [|channel _];
    [now injection Hscan as <-|].
  injection Hscan as <-. split; simpl.
  - intros q Hq. destruct (Hbl q Hq) as [Hd Hn].
    split; [apply elem_of_app; now left|].
    rewrite lookup_insert_ne; [assumption|]. intros [= ->]. contradiction.
  - intros q Hq. apply elem_of_app.
    destruct (decide (q = x)) as [->|Hne].
    + right. now apply list_elem_of_singleton.
    + left. apply Hmap. rewrite lookup_insert_ne in Hq; [assumption|].
      intros [= ->]. contradiction.
Qed.

Lemma for_each_scan_scanned backend qubits : forall done st st',
  scanned done st -> NoDup (done ++ qubits) ->
  for_each (scan_qubit backend) qubits st = Return st' ->
  scanned (done ++ qubits) st'.
Proof.
  induction qubits as [|x qubits IH]; intros done st st' Hinv Hnd Hrun;
    simpl in Hrun.
  - injection Hrun as <-. now rewrite app_nil_r.
  - destruct (scan_qubit backend st x) as [st1|e] eqn:Hx; [|discriminate].
    simpl in Hrun.
    replace (done ++ x :: qubits) with ((done ++ [x]) ++ qubits) in *
      by (now rewrite <- app_assoc).
    apply (IH (done ++ [x]) st1 st'); [|assumption|assumption].
    eapply scan_qubit_scanned; eauto.
    apply NoDup_app in Hnd as (Hnd & _ & _).
    apply NoDup_app in Hnd as (_ & Hdis & _).
    intros Hin. apply (Hdis x Hin). now apply list_elem_of_singleton.
Qed.

Lemma NoDup_range n : NoDup (range n).
Proof.
  unfold range. apply NoDup_fmap_2; [|apply NoDup_seq].
  intros a b. apply Nat2Z.inj.
Qed.

(** The defect in general: whatever the backend, as soon as the scan
    blacklists a qubit, [from_backend] raises instead of returning the
    store. *)
Lemma blacklisted_qubit_breaks_construction backend st q :
  scan_channels backend = Return st ->
  q ∈ scan_blacklist st ->
  exists e, fst (from_backend backend) = Raise e.
Proof.
  intros Hscan Hq. unfold from_backend. rewrite Hscan. simpl.
  assert (Hinv : scanned (range (num_qubits backend)) st).
  { apply (for_each_scan_scanned backend (range (num_qubits backend)) []
             {| scan_map := ∅; scan_blacklist := []; scan_warnings := [] |} st);
      [| apply NoDup_range | exact Hscan].
    split; simpl.
    - intros q' Hq'. apply elem_of_nil in Hq'. destruct Hq'.
    - intros q' [v Hv]. rewrite lookup_empty in Hv. discriminate. }
  destruct Hinv as [Hbl _]. destruct (Hbl q Hq) as [Hrange Hnone].
  unfold complete_inst_map.
  set (cals := {| _control_channel_map := scan_map st;
                  blacklist := scan_blacklist st; _inst_map := ∅ |}).
  destruct (for_each _ (range (num_qubits backend)) cals) as [self'|e] eqn:Hcopy.
  - unfold mbind, PyResult_bind. cbn [fst].
    rewrite bool_decide_eq_true_2
      by (unfold default_gates_to_add; repeat (apply list_elem_of_here || apply list_elem_of_further)).
    apply (for_each_add_rz12_missing _ self' q Hrange).
    rewrite (for_each_preserves _ _control_channel_map
               (fun s x s' H =>
                  for_each_preserves (copy_gate backend x) _control_channel_map
                    (fun s0 g s0' => copy_gate_keeps_map backend x s0 g s0')
                    default_gates_to_add s s' H)
               _ _ _ Hcopy).
    exact Hnone.
  - exists e. reflexivity.
Qed.

End CalibrationsFacts.

(** ** More on store construction *)

Module CalibrationsMoreFacts.
Import Calibrations CalibrationsMore CalibrationsFacts.


(** *** The scan covers every qubit *)

Lemma scan_qubit_covered backend done st x st' :
  covered done st ->
  scan_qubit backend st x = Return st' ->
  covered (done ++ [x]) st'.
Proof.
  intros [Hcov Hwarn] Hscan.
  assert (Hblack :
    covered (done ++ [x])
      {| scan_map := scan_map st; scan_blacklist := scan_blacklist st ++ [x];
         scan_warnings := scan_warnings st ++ [warning_message x] |}).
  { split; simpl.
    - intros q Hq. apply elem_of_app in Hq as [Hq|Hq].
      + destruct (Hcov q Hq) as [Hb|Hm]; [left; apply elem_of_app; now left | now right].
      + left. apply elem_of_app. now right.
    - now rewrite Hwarn, map_app. }
  unfold scan_qubit in Hscan.
  destruct (coupling_map backend) as [|row0 rows]; [discriminate|].
  destruct (filter _ (row0 :: rows)) as [|row _]; [now injection Hscan as <-|].
  destruct (control_channel backend row) as [|channel _];
    [now injection Hscan as <-|].
  injection Hscan as <-. split; simpl; [|exact Hwarn].
  intros q Hq. destruct (decide (q = x)) as [->|Hne].
  - right. exists channel. apply lookup_insert_eq.
  - apply elem_of_app in Hq as [Hq|Hq].
    + destruct (Hcov q Hq) as [Hb|[ch Hm]]; [now left|].
      right. exists ch. rewrite lookup_insert_ne; [assumption|].
      intros [= ->]. contradiction.
    + apply list_elem_of_singleton in Hq. contradiction.
Qed.

Lemma for_each_scan_covered backend qubits : forall done st st',
  covered done st ->
  for_each (scan_qubit backend) qubits st = Return st' ->
  covered (done ++ qubits) st'.
Proof.
  induction qubits as [|x qubits IH]; intros done st st' Hinv Hrun;
    simpl in Hrun.
  - injection Hrun as <-. now rewrite app_nil_r.
  - destruct (scan_qubit backend st x) as [st1|e] eqn:Hx; [|discriminate].
    simpl in Hrun.
    replace (done ++ x :: qubits) with ((done ++ [x]) ++ qubits)
      by (now rewrite <- app_assoc).
    apply (IH (done ++ [x]) st1 st'); [|assumption].
    eapply scan_qubit_covered; eauto.
Qed.

Lemma scan_channels_covered backend st :
  scan_channels backend = Return st ->
  covered (range (num_qubits backend)) st /\
  scanned (range (num_qubits backend)) st.
Proof.
  intros Hscan. split.
  - apply (for_each_scan_covered backend (range (num_qubits backend)) []
             {| scan_map := ∅; scan_blacklist := []; scan_warnings := [] |} st);
      [|exact Hscan].
    split; simpl; [|reflexivity].
    intros q Hq. apply elem_of_nil in Hq. destruct Hq.
  - apply (for_each_scan_scanned backend (range (num_qubits backend)) []
             {| scan_map := ∅; scan_blacklist := []; scan_warnings := [] |} st);
      [| apply NoDup_range | exact Hscan].
    split; simpl.
    + intros q' Hq'. apply elem_of_nil in Hq'. destruct Hq'.
    + intros q' [v Hv]. rewrite lookup_empty in Hv. discriminate.
Qed.

(** When the scan of [from_backend] completes, the blacklist and the
    control-channel map split the qubits between them: a qubit of the
    backend is blacklisted exactly when it has no entry, every entry holds
    exactly one channel, only qubits of the backend are blacklisted, and
    one warning was issued per blacklisted qubit, in the order of the
    blacklist. *)
Theorem scan_splits_qubits backend st :
  scan_channels backend = Return st ->
  (forall q, q ∈ range (num_qubits backend) ->
     (q ∈ scan_blacklist st <-> scan_map st !! [q] = None)) /\
  (forall q, q ∈ range (num_qubits backend) ->
     q ∉ scan_blacklist st -> exists ch, scan_map st !! [q] = Some [ch]) /\
  (forall q, q ∈ scan_blacklist st -> q ∈ range (num_qubits backend)) /\
  scan_warnings st = map warning_message (scan_blacklist st).
Proof.
  intros Hscan.
  destruct (scan_channels_covered backend st Hscan) as [[Hcov Hwarn] [Hbl Hmap]].
  split; [|split; [|split]].
  - intros q Hq. split.
    + intros Hb. exact (proj2 (Hbl q Hb)).
    + intros Hnone. destruct (Hcov q Hq) as [Hb|[ch Hch]]; [assumption|congruence].
  - intros q Hq Hnb. destruct (Hcov q Hq) as [Hb|Hch]; [contradiction|assumption].
  - intros q Hb. exact (proj1 (Hbl q Hb)).
  - exact Hwarn.
Qed.

Lemma scan_splits_qubits_witness :
  (forall q, q ∈ range (num_qubits one_way_backend) ->
     (q ∈ scan_blacklist one_way_scan <-> scan_map one_way_scan !! [q] = None)) /\
  (forall q, q ∈ range (num_qubits one_way_backend) ->
     q ∉ scan_blacklist one_way_scan ->
     exists ch, scan_map one_way_scan !! [q] = Some [ch]) /\
  (forall q, q ∈ scan_blacklist one_way_scan ->
     q ∈ range (num_qubits one_way_backend)) /\
  scan_warnings one_way_scan = map warning_message (scan_blacklist one_way_scan).
Proof.
  apply (scan_splits_qubits one_way_backend one_way_scan).
  vm_compute. reflexivity.
Defined.

(** *** [complete_inst_map] *)







(** *** Schedules copied from the backend *)







(** *** An empty coupling map *)

(** With an empty coupling map and at least one qubit, [from_backend] does
    not blacklist anything: selecting the rows of the empty array raises
    [IndexError] outside the [try], and the exception leaves
    [from_backend]. *)
Theorem empty_coupling_map_raises backend :
  coupling_map backend = [] ->
  (0 < num_qubits backend)%nat ->
  from_backend backend = (Raise (IndexError "too many indices for array"), []).
Proof.
  intros Hcmap Hn. unfold from_backend, scan_channels, range.
  destruct (num_qubits backend) as [|n]; [lia|].
  simpl. unfold scan_qubit. rewrite Hcmap. reflexivity.
Qed.

Lemma empty_coupling_map_raises_witness :
  from_backend uncoupled_backend
  = (Raise (IndexError "too many indices for array"), []).
Proof.
  apply (empty_coupling_map_raises uncoupled_backend).
  - reflexivity.
  - simpl. lia.
Defined.

End CalibrationsMoreFacts.

(** ** The fine-amplitude update *)

Module FineAmpFacts.
Import FineAmp.

Lemma lookup_add_value (cals : Store) key pv :
  add_value cals key pv !! key = Some (default [] (cals !! key) ++ [pv]).
Proof. unfold add_value. apply lookup_insert_eq. Qed.

Lemma lookup_add_value_ne (cals : Store) key key' pv :
  key <> key' -> add_value cals key pv !! key' = cals !! key'.
Proof. intros Hne. unfold add_value. now apply lookup_insert_ne. Qed.

(** C5. Whenever the store holds a current amplitude for the schedule of the
    experiment and the data holds a measured rotation error [d_theta12], the
    update returns the store with one entry appended to that schedule's
    amplitude history, whose value is
    [current * target / (target + error)], where [target] is pi/2 for the
    half rotation (sx12) and pi for the full rotation (x12); every other key
    of the store is untouched. *)
Theorem update_calibrations_formula (cls : FineEFAmplitudeCal)
  (calibrations : Store) (physical_qubits : list Z)
  (experiment_data : ExperimentData) (current_amp angle_error : float) :
  get_parameter_value calibrations "amp" physical_qubits (Some (schedule_name cls))
    = Return current_amp ->
  get_value experiment_data "d_theta12" = Return angle_error ->
  let target := match cls with
                | FineEFSXAmplitudeCal => (np_pi / 2)%float
                | FineEFXAmplitudeCal => np_pi
                end in
  let new_amp := (current_amp * target / (target + angle_error))%float in
  let key : ParameterKey :=
    ("amp", metadata_physical_qubits experiment_data, Some (schedule_name cls)) in
  exists calibrations',
    update_calibrations cls calibrations physical_qubits experiment_data
      = Return calibrations' /\
    calibrations' !! key =
      Some (default [] (calibrations !! key) ++
            [ {| pv_value := new_amp; date_time := time_stamp experiment_data;
                 valid := true; exp_id := experiment_id experiment_data |} ]) /\
    (forall key', key <> key' -> calibrations' !! key' = calibrations !! key').
Proof.
  intros Hget Herr target new_amp key.
  exists (add_parameter_value calibrations experiment_data new_amp "amp"
            (schedule_name cls)).
  split; [|split].
  - unfold update_calibrations. rewrite Hget, Herr. simpl.
    unfold mbind, PyResult_bind. subst new_amp target.
    destruct cls; reflexivity.
  - apply lookup_add_value.
  - intros key' Hne. now apply lookup_add_value_ne.
Qed.

Lemma latest_from history : forall o b,
  fold_left latest history o = Some b -> o = Some b \/ b ∈ history.
Proof.
  induction history as [|x history IH]; intros o b Hb; simpl in Hb.
  - now left.
  - destruct (IH _ _ Hb) as [Hx|Hin].
    + unfold latest in Hx. destruct (valid x).
      * destruct o as [b0|].
        -- destruct (date_time b0 <=? date_time x); injection Hx as <-.
           ++ right. apply list_elem_of_here.
           ++ now left.
        -- injection Hx as <-. right. apply list_elem_of_here.
      * now left.
    + right. now apply list_elem_of_further.
Qed.

(** When the experiment is not older than the entries already stored, the
    appended entry is the current value. *)
Lemma latest_snoc history pv :
  valid pv = true ->
  Forall (fun old => date_time old <= date_time pv) history ->
  fold_left latest (history ++ [pv]) None = Some pv.
Proof.
  intros Hv Hold. rewrite fold_left_app. simpl. unfold latest at 1.
  rewrite Hv. destruct (fold_left latest history None) as [b|] eqn:Hb;
    [|reflexivity].
  destruct (latest_from _ _ _ Hb) as [Hnone|Hin]; [discriminate|].
  rewrite Forall_forall in Hold. specialize (Hold b Hin).
  replace (date_time b <=? date_time pv) with true
    by (symmetry; apply Z.leb_le; lia).
  reflexivity.
Qed.

Lemma updated_value_is_current (cal : Store) exp_data value param schedule :
  Forall (fun old => date_time old <= time_stamp exp_data)
    (default [] (cal !! (param, metadata_physical_qubits exp_data, Some schedule))) ->
  get_parameter_value (add_parameter_value cal exp_data value param schedule)
    param (metadata_physical_qubits exp_data) (Some schedule) = Return value.
Proof.
  intros Hold. unfold get_parameter_value, add_parameter_value.
  rewrite lookup_add_value. simpl. now rewrite latest_snoc.
Qed.

Example sx12_target : target_angle FineEFSXAmplitudeCal = (np_pi / 2)%float.
Proof. reflexivity. Qed.

Example x12_target : target_angle FineEFXAmplitudeCal = np_pi.
Proof. reflexivity. Qed.

(** The worked value: 0.2 * (pi/2) / (pi/2 + 0.1*pi/2) in binary64. *)
Example worked_amplitude :
  (0.2 * (np_pi / 2) / (np_pi / 2 + 0.1 * np_pi / 2))%float
  = 0.18181818181818182%float.
Proof. reflexivity. Qed.

Lemma update_calibrations_formula_witness :
  exists calibrations',
    update_calibrations FineEFSXAmplitudeCal example_store [0] example_data
      = Return calibrations' /\
    calibrations' !! (("amp", [0], Some "sx12") : ParameterKey) =
      Some [ {| pv_value := 0.2%float; date_time := 100; valid := true;
                exp_id := "default" |};
             {| pv_value := 0.18181818181818182%float; date_time := 200;
                valid := true; exp_id := "fine-amp-1" |} ] /\
    (forall key', (("amp", [0], Some "sx12") : ParameterKey) <> key' ->
                  calibrations' !! key' = example_store !! key').
Proof.
  apply (update_calibrations_formula FineEFSXAmplitudeCal example_store [0]
           example_data 0.2%float (0.1 * np_pi / 2)%float);
    reflexivity.
Defined.

Example updated_example_is_current :
  (s ← update_calibrations FineEFSXAmplitudeCal example_store [0] example_data;
   get_parameter_value s "amp" [0] (Some "sx12"))
  = Return 0.18181818181818182%float.
Proof. vm_compute. reflexivity. Qed.

End FineAmpFacts.

(** ** The anharmonicity updates *)

Module SpectroscopyFacts.
Import FineAmp FineAmpFacts Spectroscopy.

(** When both peak positions are among the results and the store holds a
    current anharmonicity, the narrow-band update appends to the
    anharmonicity history one entry whose value is the current value plus
    the mean of the two positions, whatever single-peak result the data
    also holds, and touches no other key. *)
Theorem narrow_update_uses_mean_of_two_peaks (calibrations : Store)
  (physical_qubits : list Z) (experiment_data : ExperimentData)
  (delta_0 delta_1 anh : float) :
  get_value experiment_data "Δα0" = Return delta_0 ->
  get_value experiment_data "Δα1" = Return delta_1 ->
  get_parameter_value calibrations "α" physical_qubits None = Return anh ->
  let key : ParameterKey :=
    ("α", metadata_physical_qubits experiment_data, None) in
  exists calibrations',
    narrow_update_calibrations calibrations physical_qubits experiment_data
      = Return calibrations' /\
    calibrations' !! key =
      Some (default [] (calibrations !! key) ++
            [ {| pv_value := (anh + 0.5 * (delta_0 + delta_1))%float;
                 date_time := time_stamp experiment_data;
                 valid := true; exp_id := experiment_id experiment_data |} ]) /\
    (forall key', key <> key' -> calibrations' !! key' = calibrations !! key').
Proof.
  intros H0 H1 Hanh key.
  exists (add_parameter_value_at calibrations experiment_data
            (anh + 0.5 * (delta_0 + delta_1))%float "α" None).
  split; [|split].
  - unfold narrow_update_calibrations, narrow_delta.
    rewrite H0, H1. simpl. rewrite Hanh. reflexivity.
  - apply lookup_add_value.
  - intros key' Hne. now apply lookup_add_value_ne.
Qed.

(** As soon as one of the two peak positions is missing from the results,
    the narrow-band update does exactly what the rough update does: it
    uses the single-peak result, a lone peak position is ignored, and it
    raises what the rough update raises. *)
Theorem narrow_update_falls_back_to_rough (calibrations : Store)
  (physical_qubits : list Z) (experiment_data : ExperimentData) :
  (exists name, get_value experiment_data "Δα0" = Raise (ExperimentEntryNotFound name)) \/
  (exists name, get_value experiment_data "Δα1" = Raise (ExperimentEntryNotFound name)) ->
  narrow_update_calibrations calibrations physical_qubits experiment_data
  = rough_update_calibrations calibrations physical_qubits experiment_data.
Proof.
  intros Hmiss. unfold narrow_update_calibrations, rough_update_calibrations.
  f_equal. unfold narrow_delta.
  destruct Hmiss as [[name H0]|[name H1]].
  - rewrite H0. reflexivity.
  - rewrite H1. destruct (get_value experiment_data "Δα0") as [d0|e] eqn:H0.
    + reflexivity.
    + unfold get_value in H0.
      destruct (reverse _) in H0; [|discriminate].
      injection H0 as <-. reflexivity.
Qed.

Lemma narrow_update_uses_mean_of_two_peaks_witness :
  exists calibrations',
    narrow_update_calibrations anharmonicity_store [0] two_peak_data
      = Return calibrations' /\
    calibrations' !! (("α", [0], None) : ParameterKey) =
      Some [ {| pv_value := (-300e6)%float; date_time := 100; valid := true;
                exp_id := "default" |};
             {| pv_value := (-298e6)%float; date_time := 200; valid := true;
                exp_id := "narrow-band-1" |} ] /\
    (forall key', (("α", [0], None) : ParameterKey) <> key' ->
                  calibrations' !! key' = anharmonicity_store !! key').
Proof.
  apply (narrow_update_uses_mean_of_two_peaks anharmonicity_store [0]
           two_peak_data 1e6%float 3e6%float (-300e6)%float);
    reflexivity.
Defined.

Lemma narrow_update_falls_back_to_rough_witness :
  narrow_update_calibrations anharmonicity_store [0] lone_peak_data
  = rough_update_calibrations anharmonicity_store [0] lone_peak_data.
Proof.
  apply (narrow_update_falls_back_to_rough anharmonicity_store [0] lone_peak_data).
  right. eexists. reflexivity.
Defined.

Example lone_peak_uses_single_result :
  (s ← narrow_update_calibrations anharmonicity_store [0] lone_peak_data;
   get_parameter_value s "α" [0] None)
  = Return (-295e6)%float.
Proof. vm_compute. reflexivity. Qed.

Example no_result_raises :
  narrow_update_calibrations anharmonicity_store [0] no_peak_data
  = Raise (ExperimentEntryNotFound "Δα").
Proof. vm_compute. reflexivity. Qed.

End SpectroscopyFacts.

(** ** [format_params] truncates toward zero *)

Module UtilsFacts.
Import Utils.

(** *** Decimal magnitudes at a common scale *)

Lemma pow10_pos k : 0 < 10 ^ k \/ k < 0.
Proof. destruct (Z.le_gt_cases 0 k); [left; now apply Z.pow_pos_nonneg | now right]. Qed.

Lemma Dmag_one_pos m : (0 < Dmag 1 m)%Q.
Proof.
  unfold Dmag. destruct (0 <=? m) eqn:E.
  - apply Z.leb_le in E. rewrite <- (Zlt_Qlt 0).
    assert (0 < 10 ^ m) by (apply Z.pow_pos_nonneg; lia). lia.
  - reflexivity.
Qed.

Lemma Dmag_scaled c e m :
  m <= e -> (Dmag c e == inject_Z (scaled c e m) * Dmag 1 m)%Q.
Proof.
  intros Hm. unfold Dmag, scaled.
  destruct (0 <=? e) eqn:Ee, (0 <=? m) eqn:Em;
    try apply Z.leb_le in Ee; try apply Z.leb_le in Em;
    try apply Z.leb_gt in Ee; try apply Z.leb_gt in Em; try lia.
  - rewrite <- inject_Z_mult. apply inject_Z_injective.
    replace e with ((e - m) + m) at 1 by lia.
    rewrite Z.pow_add_r by lia. lia.
  - unfold Qeq, Qmult, inject_Z; cbn [Qnum Qden Z.of_N];
    rewrite ?Pos.mul_1_l, ?Pos.mul_1_r.
    assert (0 < 10 ^ (- m)) by (apply Z.pow_pos_nonneg; lia).
    rewrite Z2Pos.id by assumption.
    replace (e - m) with (e + - m) by lia.
    rewrite Z.pow_add_r by lia. lia.
  - unfold Qeq, Qmult, inject_Z; cbn [Qnum Qden Z.of_N];
    rewrite ?Pos.mul_1_l, ?Pos.mul_1_r.
    assert (0 < 10 ^ (- m)) by (apply Z.pow_pos_nonneg; lia).
    assert (0 < 10 ^ (- e)) by (apply Z.pow_pos_nonneg; lia).
    rewrite !Z2Pos.id by assumption.
    replace (- m) with ((e - m) + - e) by lia.
    rewrite Z.pow_add_r by lia. lia.
Qed.

Lemma Dmag_le_iff c e c' e' m :
  m <= e -> m <= e' ->
  (Dmag c e <= Dmag c' e')%Q <-> scaled c e m <= scaled c' e' m.
Proof.
  intros He He'. rewrite (Dmag_scaled c e m He), (Dmag_scaled c' e' m He').
  rewrite Qmult_le_r by apply Dmag_one_pos. now rewrite <- Zle_Qle.
Qed.

Lemma Dmag_lt_iff c e c' e' m :
  m <= e -> m <= e' ->
  (Dmag c e < Dmag c' e')%Q <-> scaled c e m < scaled c' e' m.
Proof.
  intros He He'. rewrite (Dmag_scaled c e m He), (Dmag_scaled c' e' m He').
  rewrite Qmult_lt_r by apply Dmag_one_pos. now rewrite <- Zlt_Qlt.
Qed.

(** *** The digit count *)

Lemma div10_facts (c : N) :
  exists q r : N, (c / 10)%N = q /\ c = (10 * q + r)%N /\ (r < 10)%N.
Proof.
  exists (c / 10)%N, (c mod 10)%N. split; [reflexivity|]. split.
  - apply N.div_mod'.
  - now apply N.mod_lt.
Qed.

Lemma ndigits_fuel_spec fuel : forall c,
  (c < 2 ^ N.of_nat fuel)%N ->
  1 <= ndigits_fuel fuel c /\
  Z.of_N c < 10 ^ ndigits_fuel fuel c /\
  (0 < Z.of_N c -> 10 ^ (ndigits_fuel fuel c - 1) <= Z.of_N c).
Proof.
  induction fuel as [|fuel IH]; intros c Hc.
  - simpl in *. assert (c = 0%N) by lia. subst c. simpl. lia.
  - cbn [ndigits_fuel]. destruct (c <? 10)%N eqn:E.
    + apply N.ltb_lt in E. change (10 ^ 1) with 10. change (10 ^ (1 - 1)) with 1. lia.
    + apply N.ltb_ge in E.
      destruct (div10_facts c) as (q & r & -> & Hdm & Hmod).
      assert (Hfuel : (q < 2 ^ N.of_nat fuel)%N).
      { rewrite Nat2N.inj_succ, N.pow_succ_r' in Hc.
        generalize dependent (2 ^ N.of_nat fuel)%N. intros. lia. }
      destruct (IH _ Hfuel) as (H1 & Hup & Hlow).
      set (n := ndigits_fuel fuel q) in *.
      split; [lia|]. split.
      * rewrite Z.pow_add_r by lia. change (10 ^ 1) with 10. lia.
      * intros _. replace (1 + n - 1) with (1 + (n - 1)) by lia.
        rewrite Z.pow_add_r by lia. change (10 ^ 1) with 10.
        assert (0 < Z.of_N q) by lia. specialize (Hlow ltac:(assumption)). lia.
Qed.

Lemma ndigits_spec c :
  1 <= ndigits c /\
  Z.of_N c < 10 ^ ndigits c /\
  (0 < Z.of_N c -> 10 ^ (ndigits c - 1) <= Z.of_N c).
Proof.
  unfold ndigits. apply ndigits_fuel_spec.
  rewrite N2Nat.id. apply N.size_gt.
Qed.

Lemma pow10_lt_inv a b : 0 <= b -> 10 ^ a < 10 ^ b -> a < b.
Proof.
  intros Hb Hlt. destruct (Z.lt_ge_cases a b) as [|Hge]; [assumption|].
  assert (10 ^ b <= 10 ^ a) by (apply Z.pow_le_mono_r; lia). lia.
Qed.

(** A coefficient below [10^n] has at most [n] digits. *)
Lemma ndigits_le c n : 1 <= n -> Z.of_N c < 10 ^ n -> ndigits c <= n.
Proof.
  intros Hn Hc. destruct (ndigits_spec c) as (H1 & _ & Hlow).
  destruct (N.eq_0_gt_0_cases c) as [->|Hpos]; [change (ndigits 0) with 1; lia|].
  specialize (Hlow ltac:(lia)).
  assert (ndigits c - 1 < n); [|lia].
  apply pow10_lt_inv; lia.
Qed.

(** *** Truncation of the coefficient *)

Lemma Z_of_pow10 k : 0 <= k -> Z.of_N (pow10 k) = 10 ^ k.
Proof.
  intros Hk. unfold pow10. rewrite N2Z.inj_pow, Z2N.id by assumption.
  reflexivity.
Qed.

Lemma scaled_same c e : scaled c e e = Z.of_N c.
Proof. unfold scaled. rewrite Z.sub_diag. simpl. lia. Qed.

Lemma rescale_down_unique s c e exp c' :
  (Dmag c' exp <= Dmag c e)%Q ->
  (Dmag c e < Dmag (c' + 1) exp)%Q ->
  _rescale ROUND_DOWN s c e exp = c'.
Proof.
  intros Hle Hlt. unfold _rescale.
  destruct (exp <=? e) eqn:E; [apply Z.leb_le in E | apply Z.leb_gt in E].
  - rewrite (Dmag_le_iff _ _ _ _ exp) in Hle by lia.
    rewrite (Dmag_lt_iff _ _ _ _ exp) in Hlt by lia.
    rewrite !scaled_same in *. unfold scaled in *.
    apply N2Z.inj. rewrite N2Z.inj_mul, Z_of_pow10 by lia. lia.
  - rewrite (Dmag_le_iff _ _ _ _ e) in Hle by lia.
    rewrite (Dmag_lt_iff _ _ _ _ e) in Hlt by lia.
    rewrite !scaled_same in *. unfold scaled in *.
    cbn [round_increment].
    apply N2Z.inj. rewrite N2Z.inj_div, Z_of_pow10 by lia.
    assert (0 < 10 ^ (exp - e)) by (apply Z.pow_pos_nonneg; lia).
    symmetry. apply (Z.div_unique_pos _ _ _ (Z.of_N c - Z.of_N c' * 10 ^ (exp - e))); lia.
Qed.

Lemma rescale_down_bounds s c e exp :
  (Dmag (_rescale ROUND_DOWN s c e exp) exp <= Dmag c e)%Q /\
  (Dmag c e < Dmag (_rescale ROUND_DOWN s c e exp + 1) exp)%Q.
Proof.
  unfold _rescale.
  destruct (exp <=? e) eqn:E; [apply Z.leb_le in E | apply Z.leb_gt in E].
  - rewrite (Dmag_le_iff _ _ _ _ exp), (Dmag_lt_iff _ _ _ _ exp) by lia.
    rewrite !scaled_same. unfold scaled.
    rewrite N2Z.inj_add, N2Z.inj_mul, Z_of_pow10 by lia. lia.
  - cbn [round_increment].
    rewrite (Dmag_le_iff _ _ _ _ e), (Dmag_lt_iff _ _ _ _ e) by lia.
    rewrite !scaled_same. unfold scaled.
    rewrite N2Z.inj_add, N2Z.inj_div, Z_of_pow10 by lia.
    assert (Hd : 0 < 10 ^ (exp - e)) by (apply Z.pow_pos_nonneg; lia).
    pose proof (Z.div_mod (Z.of_N c) _ (Z.neq_sym _ _ (Z.lt_neq _ _ Hd))) as Hdm.
    pose proof (Z.mod_pos_bound (Z.of_N c) _ Hd) as Hmod.
    set (q := Z.of_N c / 10 ^ (exp - e)) in *.
    set (r := Z.of_N c mod 10 ^ (exp - e)) in *.
    clearbody q r. change (Z.of_N 1) with 1. nia.
Qed.

(** The leading digit of a value below [(c' + 1) * 10^exp] sits no higher
    than that of [c' * 10^exp]. *)
Lemma adjusted_le c e c' exp :
  c <> 0%N ->
  (Dmag c e < Dmag (c' + 1) exp)%Q ->
  e + ndigits c <= exp + ndigits c'.
Proof.
  intros Hc Hlt.
  rewrite (Dmag_lt_iff _ _ _ _ (Z.min e exp)) in Hlt by lia.
  unfold scaled in Hlt.
  destruct (ndigits_spec c) as (Hn1 & _ & Hlow).
  destruct (ndigits_spec c') as (Hn1' & Hup' & _).
  specialize (Hlow ltac:(lia)).
  set (m := Z.min e exp) in *.
  assert (Hpe : 0 < 10 ^ (e - m)) by (apply Z.pow_pos_nonneg; lia).
  assert (Hpx : 0 < 10 ^ (exp - m)) by (apply Z.pow_pos_nonneg; lia).
  assert (H1 : 10 ^ (ndigits c - 1 + (e - m)) <= Z.of_N c * 10 ^ (e - m)).
  { rewrite Z.pow_add_r by lia. nia. }
  assert (H2 : Z.of_N (c' + 1) * 10 ^ (exp - m) <= 10 ^ (ndigits c' + (exp - m))).
  { rewrite Z.pow_add_r by lia. rewrite N2Z.inj_add. change (Z.of_N 1) with 1. nia. }
  assert (ndigits c - 1 + (e - m) < ndigits c' + (exp - m)); [|lia].
  apply pow10_lt_inv; lia.
Qed.

Lemma Dmag_zero_inv c' exp e :
  (Dmag c' exp <= Dmag 0 e)%Q -> c' = 0%N.
Proof.
  intros H. rewrite (Dmag_le_iff _ _ _ _ (Z.min e exp)) in H by lia.
  unfold scaled in H. simpl in H.
  assert (0 < 10 ^ (exp - Z.min e exp)) by (apply Z.pow_pos_nonneg; lia).
  nia.
Qed.

(** [quantize] with [ROUND_DOWN] returns the one coefficient that brackets
    the value from below, provided it fits the context. *)
Lemma quantize_down s c e exp c' :
  Etiny utils_context <= exp <= ctx_Emax utils_context ->
  (Dmag c' exp <= Dmag c e)%Q ->
  (Dmag c e < Dmag (c' + 1) exp)%Q ->
  ndigits c' <= ctx_prec utils_context ->
  exp + ndigits c' - 1 <= ctx_Emax utils_context ->
  quantize utils_context (Dfinite s c e) exp = Return (Dfinite s c' exp).
Proof.
  intros [Hlo Hhi] Hle Hlt Hprec Hmax. unfold quantize.
  replace ((Etiny utils_context <=? exp) && (exp <=? ctx_Emax utils_context))
    with true by (symmetry; apply andb_true_iff; split; apply Z.leb_le; lia).
  cbn [negb].
  destruct (c =? 0)%N eqn:Ec.
  - apply N.eqb_eq in Ec. subst c.
    now rewrite (Dmag_zero_inv _ _ _ Hle).
  - apply N.eqb_neq in Ec.
    pose proof (adjusted_le _ _ _ _ Ec Hlt) as Hadj.
    replace (ctx_Emax utils_context <? e + ndigits c - 1) with false
      by (symmetry; apply Z.ltb_ge; lia).
    replace (ctx_prec utils_context <? e + ndigits c - 1 - exp + 1) with false
      by (symmetry; apply Z.ltb_ge; lia).
    change (ctx_rounding utils_context) with ROUND_DOWN.
    rewrite (rescale_down_unique s c e exp c' Hle Hlt).
    replace (ctx_Emax utils_context <? exp + ndigits c' - 1) with false
      by (symmetry; apply Z.ltb_ge; lia).
    replace (ctx_prec utils_context <? ndigits c') with false
      by (symmetry; apply Z.ltb_ge; lia).
    reflexivity.
Qed.

(** *** [Decimal(float)] is exact *)

Lemma reduce_ratio_spec m : forall k0 n k,
  reduce_ratio m k0 = (n, k) ->
  (k <= k0)%nat /\
  Zpos m * 2 ^ Z.of_nat k = Zpos n * 2 ^ Z.of_nat k0.
Proof.
  induction m as [m IH|m IH|]; intros k0 n k Hr.
  - destruct k0; injection Hr as <- <-; split; lia.
  - destruct k0 as [|k0].
    + injection Hr as <- <-. split; lia.
    + simpl in Hr. destruct (IH _ _ _ Hr) as [Hk Heq]. split; [lia|].
      rewrite Nat2Z.inj_succ, Z.pow_succ_r by lia.
      rewrite Pos2Z.inj_xO. lia.
  - destruct k0; injection Hr as <- <-; split; lia.
Qed.

Lemma Decimal_from_float_exact value s m e :
  Prim2SF value = S754_finite s m e ->
  exists c d, Decimal_from_float value = Dfinite s c d /\
              (Dmag c d == float_mag value)%Q /\ c <> 0%N.
Proof.
  intros Hsf. unfold Decimal_from_float, float_mag. rewrite Hsf.
  destruct (0 <=? e) eqn:E; [apply Z.leb_le in E | apply Z.leb_gt in E].
  - eexists _, _. split; [reflexivity|]. split; [|lia].
    unfold Dmag. simpl (0 <=? 0).
    cbv iota. rewrite N2Z.inj_mul, N2Z.inj_pow, Z2N.id by lia.
    change (10 ^ 0) with 1. rewrite Z.mul_1_r. reflexivity.
  - destruct (reduce_ratio m (Z.to_nat (- e))) as [n k] eqn:Hr.
    destruct (reduce_ratio_spec _ _ _ _ Hr) as [Hk Heq].
    rewrite Z2Nat.id in Heq by lia.
    eexists _, _. split; [reflexivity|]. split; [|lia].
    assert (H2 : 0 < 2 ^ (- e)) by (apply Z.pow_pos_nonneg; lia).
    unfold Dmag. destruct (0 <=? - Z.of_nat k) eqn:Ek;
      [apply Z.leb_le in Ek | apply Z.leb_gt in Ek].
    + assert (k = 0%nat) by lia. subst k.
      change (Z.of_nat 0) with 0 in *. change (- 0) with 0.
      change (2 ^ 0) with 1 in Heq.
      unfold Qeq, inject_Z; cbn [Qnum Qden].
      rewrite Z2Pos.id by assumption.
      change (N.of_nat 0) with 0%N. change (5 ^ 0)%N with 1%N.
      rewrite N.mul_1_r. change (10 ^ 0) with 1.
      change (Z.of_N (N.pos n)) with (Z.pos n). lia.
    + unfold Qeq; cbn [Qnum Qden].
      rewrite Z.opp_involutive.
      assert (H10 : 0 < 10 ^ Z.of_nat k) by (apply Z.pow_pos_nonneg; lia).
      rewrite !Z2Pos.id by assumption.
      rewrite N2Z.inj_mul, N2Z.inj_pow, nat_N_Z.
      change (Z.of_N (N.pos n)) with (Z.pos n). change (Z.of_N 5) with 5.
      replace (10 ^ Z.of_nat k) with (2 ^ Z.of_nat k * 5 ^ Z.of_nat k)
        by (rewrite <- Z.pow_mul_l; reflexivity).
      nia.
Qed.

Lemma Decimal_from_float_finite value :
  float_finite value = true ->
  exists c d, Decimal_from_float value = Dfinite (float_sign value) c d /\
              (Dmag c d == float_mag value)%Q.
Proof.
  unfold float_finite, float_sign. intros Hfin.
  destruct (Prim2SF value) as [s|s| |s m e] eqn:Hsf; try discriminate.
  - exists 0%N, 0. unfold Decimal_from_float, float_mag. rewrite Hsf.
    split; reflexivity.
  - destruct (Decimal_from_float_exact _ _ _ _ Hsf) as (c & d & Hd & Hq & _).
    exists c, d. split; assumption.
Qed.

(** *** The rounding step on decimals *)

Lemma quantize_truncates s c e digit :
  0 <= digit <= 1000026 ->
  (Dmag c e < Dmag 1 (28 - digit))%Q ->
  exists c',
    quantize utils_context (Dfinite s c e) (- digit) = Return (Dfinite s c' (- digit)) /\
    (Dmag c' (- digit) <= Dmag c e)%Q /\
    (Dmag c e < Dmag (c' + 1) (- digit))%Q.
Proof.
  intros Hdigit Hmag.
  exists (_rescale ROUND_DOWN s c e (- digit)).
  destruct (rescale_down_bounds s c e (- digit)) as [Hle Hlt].
  set (c' := _rescale ROUND_DOWN s c e (- digit)) in *.
  split; [|split; assumption].
  assert (Hc' : ndigits c' <= 28).
  { apply ndigits_le; [lia|].
    pose proof (Qle_lt_trans _ _ _ Hle Hmag) as H.
    rewrite (Dmag_lt_iff _ _ _ _ (- digit)) in H by lia.
    rewrite scaled_same in H. unfold scaled in H.
    replace (28 - digit - - digit) with 28 in H by lia.
    change (Z.of_N 1) with 1 in H. lia. }
  apply quantize_down; try assumption.
  - unfold Etiny. simpl. lia.
  - simpl. lia.
Qed.

Lemma quantize_inv D exp s c' exp' :
  quantize utils_context D exp = Return (Dfinite s c' exp') ->
  exp' = exp /\
  Etiny utils_context <= exp <= ctx_Emax utils_context /\
  ndigits c' <= ctx_prec utils_context /\
  exp + ndigits c' - 1 <= ctx_Emax utils_context.
Proof.
  destruct D as [s0 c e|s0|]; simpl; try discriminate.
  destruct ((Etiny utils_context <=? exp) && (exp <=? 999999)) eqn:Hrange;
    simpl; [|discriminate].
  apply andb_true_iff in Hrange as [Hlo Hhi].
  apply Z.leb_le in Hlo, Hhi.
  destruct (c =? 0)%N.
  - intros [= <- <- <-]. change (ndigits 0) with 1. simpl. lia.
  - destruct (999999 <? e + ndigits c - 1); [discriminate|].
    destruct (28 <? e + ndigits c - 1 - exp + 1); [discriminate|].
    destruct (999999 <? exp + ndigits (_rescale ROUND_DOWN s0 c e exp) - 1) eqn:E1;
      [discriminate|].
    destruct (28 <? ndigits (_rescale ROUND_DOWN s0 c e exp)) eqn:E2;
      [discriminate|].
    intros [= <- <- <-]. apply Z.ltb_ge in E1, E2. simpl. lia.
Qed.

(** C6 (amended). For every finite float and every digit count from 0 to
    1000026 such that the value is below 10^(28 - digit) in magnitude, the
    function returns, and what it returns is the float nearest to the
    decimal obtained by cutting the exact decimal expansion of the value
    after [digit] places: the kept decimal has the sign of the value and
    lies between the value and zero, less than 10^-digit away from the
    value. The value is truncated toward zero, not rounded to nearest. *)
Theorem format_params_truncates value digit :
  float_finite value = true ->
  0 <= digit <= 1000026 ->
  (float_mag value < Dmag 1 (28 - digit))%Q ->
  exists c',
    format_params value digit
      = Return (Decimal_to_float (Dfinite (float_sign value) c' (- digit))) /\
    (Dmag c' (- digit) <= float_mag value)%Q /\
    (float_mag value < Dmag (c' + 1) (- digit))%Q.
Proof.
  intros Hfin Hdigit Hmag.
  destruct (Decimal_from_float_finite value Hfin) as (c & d & Hdec & Hexact).
  rewrite <- Hexact in Hmag.
  destruct (quantize_truncates (float_sign value) c d digit Hdigit Hmag)
    as (c' & Hq & Hle & Hlt).
  exists c'. rewrite <- Hexact. split; [|split; assumption].
  unfold format_params, format_params_in, Decimal_round.
  rewrite Hdec, Hq. reflexivity.
Qed.

(** C7 (amended). Let the first call keep the decimal [c' * 10^-digit] with
    sign [s] and return the float [y] nearest to it. If [y], read exactly,
    has sign [s] and is not smaller in magnitude than that decimal, and is
    less than 10^-digit above it, then a second call returns [y] again. *)
Theorem format_params_idempotent_unless_below x digit y s c' :
  Decimal_round utils_context (Decimal_from_float x) digit
    = Return (Dfinite s c' (- digit)) ->
  y = Decimal_to_float (Dfinite s c' (- digit)) ->
  float_finite y = true ->
  float_sign y = s ->
  (Dmag c' (- digit) <= float_mag y)%Q ->
  (float_mag y < Dmag (c' + 1) (- digit))%Q ->
  format_params x digit = Return y /\ format_params y digit = Return y.
Proof.
  intros Hfirst Hy Hfin Hsign Hle Hlt. split.
  - unfold format_params, format_params_in. rewrite Hfirst, Hy. reflexivity.
  - destruct (quantize_inv _ _ _ _ _ Hfirst) as (_ & Hrange & Hprec & Hmax).
    destruct (Decimal_from_float_finite y Hfin) as (cy & ey & Hdec & Hexact).
    rewrite Hsign in Hdec. rewrite <- Hexact in Hle, Hlt.
    unfold format_params, format_params_in, Decimal_round. rewrite Hdec.
    rewrite (quantize_down s cy ey (- digit) c' Hrange Hle Hlt Hprec Hmax).
    rewrite Hy. reflexivity.
Qed.

(** *** Worked values *)

Example format_params_pi : format_params 3.1415956%float 3 = Return 3.141%float.
Proof. vm_compute. reflexivity. Qed.

Example format_params_default_pi :
  format_params_default 3.1415956%float = Return 3.141%float.
Proof. vm_compute. reflexivity. Qed.

Example format_params_negative :
  format_params (-2.7189)%float 3 = Return (-2.718)%float.
Proof. vm_compute. reflexivity. Qed.

Example format_params_infinity_raises :
  format_params infinity 3 = Raise (InvalidOperation "quantize with one INF").
Proof. vm_compute. reflexivity. Qed.

Example format_params_too_large_raises :
  format_params 1e25%float 3
  = Raise (InvalidOperation
             "quantize result has too many digits for current context").
Proof. vm_compute. reflexivity. Qed.

Lemma format_params_truncates_witness :
  exists c',
    format_params 3.1415956%float 3
      = Return (Decimal_to_float (Dfinite (float_sign 3.1415956%float) c' (- 3))) /\
    (Dmag c' (- 3) <= float_mag 3.1415956%float)%Q /\
    (float_mag 3.1415956%float < Dmag (c' + 1) (- 3))%Q.
Proof.
  apply (format_params_truncates 3.1415956%float 3).
  - vm_compute. reflexivity.
  - lia.
  - vm_compute. reflexivity.
Defined.

Lemma format_params_idempotent_unless_below_witness :
  format_params 3.1415956%float 3 = Return 3.141%float /\
  format_params 3.141%float 3 = Return 3.141%float.
Proof.
  apply (format_params_idempotent_unless_below
           3.1415956%float 3 3.141%float false 3141%N).
  - vm_compute. reflexivity.
  - vm_compute. reflexivity.
  - vm_compute. reflexivity.
  - vm_compute. reflexivity.
  - vm_compute. discriminate.
  - vm_compute. reflexivity.
Defined.

(** C6 as stated fails on its own example: 3.1415956 is no tie and the
    nearest three-digit decimal is 3.142, which rounding half-down gives;
    the function returns 3.141. *)
Lemma format_params_is_not_half_down :
  format_params 3.1415956%float 3 = Return 3.141%float /\
  format_params_in (with_rounding utils_context ROUND_HALF_DOWN) 3.1415956%float 3
    = Return 3.142%float /\
  format_params 3.1415956%float 3 <>
  format_params_in (with_rounding utils_context ROUND_HALF_DOWN) 3.1415956%float 3.
Proof.
  split; [vm_compute; reflexivity|]. split; [vm_compute; reflexivity|].
  intros H.
  apply (f_equal (fun r => match r with
                           | Return f => (f <? 3.1415)%float
                           | Raise _ => false
                           end)) in H.
  vm_compute in H. discriminate.
Qed.

(** C7 as stated fails: 1.0055 is cut to the decimal 1.005, the float
    nearest to 1.005 is a little below it, and the second call cuts that
    float to 1.004. *)
Lemma format_params_not_idempotent :
  format_params 1.0055%float 3 = Return 1.005%float /\
  format_params 1.005%float 3 = Return 1.004%float /\
  (y ← format_params 1.0055%float 3; format_params y 3)
    <> format_params 1.0055%float 3.
Proof.
  split; [vm_compute; reflexivity|]. split; [vm_compute; reflexivity|].
  intros H.
  apply (f_equal (fun r => match r with
                           | Return f => (f <? 1.0045)%float
                           | Raise _ => false
                           end)) in H.
  vm_compute in H. discriminate.
Qed.

End UtilsFacts.

(** ** More on [format_params]: what it rejects, and its symmetry *)

Module UtilsMoreFacts.
Import FloatOrder Utils UtilsFacts.





Lemma too_many_digits c d digit :
  c <> 0%N ->
  (Dmag 1 (28 - digit) <= Dmag c d)%Q ->
  28 < d + ndigits c - 1 - - digit + 1.
Proof.
  intros Hc Hle.
  rewrite (Dmag_le_iff _ _ _ _ (Z.min d (28 - digit))) in Hle by lia.
  unfold scaled in Hle. change (Z.of_N 1) with 1 in Hle.
  set (m := Z.min d (28 - digit)) in *.
  destruct (ndigits_spec c) as (Hn1 & Hup & _).
  assert (Hpd : 0 < 10 ^ (d - m)) by (apply Z.pow_pos_nonneg; lia).
  assert (H1 : Z.of_N c * 10 ^ (d - m) < 10 ^ (ndigits c + (d - m))).
  { rewrite Z.pow_add_r by lia. nia. }
  assert (28 - digit - m < ndigits c + (d - m)); [|lia].
  apply pow10_lt_inv; lia.
Qed.

(** The bound of the truncation theorem is sharp: a finite value of
    magnitude 10^(28 - digit) or more is rejected with [InvalidOperation],
    the decimal context allowing 28 digits. *)
Theorem format_params_rejects_large_values value digit :
  float_finite value = true ->
  0 <= digit <= 1000026 ->
  (Dmag 1 (28 - digit) <= float_mag value)%Q ->
  exists msg, format_params value digit = Raise (InvalidOperation msg).
Proof.
  intros Hfin Hdigit Hmag.
  destruct (Decimal_from_float_finite value Hfin) as (c & d & Hdec & Hexact).
  rewrite <- Hexact in Hmag.
  assert (Hc : c <> 0%N).
  { intros ->. pose proof (Dmag_one_pos (28 - digit)) as Hpos.
    assert (Hz : (Dmag 0 d == 0)%Q).
    { unfold Dmag. destruct (0 <=? d); reflexivity. }
    rewrite Hz in Hmag. apply (Qlt_irrefl 0). eapply Qlt_le_trans; eauto. }
  pose proof (too_many_digits c d digit Hc Hmag) as Hmany.
  unfold format_params, format_params_in, Decimal_round. rewrite Hdec.
  unfold quantize.
  replace ((Etiny utils_context <=? - digit) && (- digit <=? ctx_Emax utils_context))
    with true
    by (symmetry; apply andb_true_iff; unfold Etiny; simpl; split; apply Z.leb_le; lia).
  cbn [negb]. replace (c =? 0)%N with false by (symmetry; now apply N.eqb_neq).
  destruct (ctx_Emax utils_context <? d + ndigits c - 1); [eexists; reflexivity|].
  replace (ctx_prec utils_context <? d + ndigits c - 1 - - digit + 1) with true
    by (symmetry; apply Z.ltb_lt; exact Hmany).
  eexists. reflexivity.
Qed.

Lemma format_params_rejects_large_values_witness :
  exists msg, format_params 1e25%float 3 = Raise (InvalidOperation msg).
Proof.
  apply (format_params_rejects_large_values 1e25%float 3).
  - vm_compute. reflexivity.
  - lia.
  - vm_compute. discriminate.
Defined.

(** *** Symmetry about zero *)

Lemma SFopp_involutive a : SFopp (SFopp a) = a.
Proof. destruct a as [s|s| |s m e]; simpl; now rewrite ?negb_involutive. Qed.

Lemma opp_involutive (x : float) : (- - x)%float = x.
Proof. apply Prim2SF_inj. now rewrite !opp_spec, SFopp_involutive. Qed.

Lemma Decimal_from_float_opp value :
  Decimal_from_float (- value) = Decimal_negate (Decimal_from_float value).
Proof.
  unfold Decimal_from_float. rewrite opp_spec.
  destruct (Prim2SF value) as [s|s| |s m e]; simpl; try reflexivity.
  destruct (0 <=? e); [reflexivity|].
  now destruct (reduce_ratio m (Z.to_nat (- e))).
Qed.

Lemma quantize_down_negate d exp :
  quantize utils_context (Decimal_negate d) exp
  = match quantize utils_context d exp with
    | Return r => Return (Decimal_negate r)
    | Raise e => Raise e
    end.
Proof.
  destruct d as [s c e|s|]; simpl; try reflexivity.
  destruct (negb _); [reflexivity|].
  destruct (c =? 0)%N; [reflexivity|].
  destruct (999999 <? e + ndigits c - 1); [reflexivity|].
  destruct (28 <? e + ndigits c - 1 - exp + 1); [reflexivity|].
  change (_rescale ROUND_DOWN (negb s) c e exp) with (_rescale ROUND_DOWN s c e exp).
  destruct (999999 <? exp + ndigits (_rescale ROUND_DOWN s c e exp) - 1);
    [reflexivity|].
  now destruct (28 <? ndigits (_rescale ROUND_DOWN s c e exp)).
Qed.

Lemma binary_round_aux_opp sx mx ex lx :
  binary_round_aux prec emax (negb sx) mx ex lx
  = SFopp (binary_round_aux prec emax sx mx ex lx).
Proof.
  unfold binary_round_aux.
  destruct (shr_fexp prec emax mx ex lx) as [mrs' e'].
  destruct (shr_fexp prec emax _ e' loc_Exact) as [mrs'' e''].
  destruct (shr_m mrs''); try reflexivity.
  now destruct (e'' <=? emax - prec).
Qed.

Lemma SF2Prim_opp a : SF2Prim (SFopp a) = (- SF2Prim a)%float.
Proof.
  destruct a as [[]|[]| |[] m e]; try reflexivity.
  simpl. now rewrite opp_involutive.
Qed.

Lemma Decimal_to_float_negate d :
  Decimal_to_float (Decimal_negate d) = (- Decimal_to_float d)%float.
Proof.
  destruct d as [s [|p] e|s|]; simpl.
  - now destruct s.
  - rewrite <- SF2Prim_opp. f_equal. unfold SFdiv.
    destruct (SFdiv_core_binary prec emax _ 0 _ 0) as [[mz ez] lz].
    rewrite !xorb_false_r. apply binary_round_aux_opp.
  - now destruct s.
  - reflexivity.
Qed.

(** Truncation is symmetric about zero: the function applied to [-x]
    returns the negation of what it returns for [x], and raises whenever it
    raises for [x]. *)
Theorem format_params_is_odd value digit :
  format_params (- value) digit
  = match format_params value digit with
    | Return r => Return (- r)%float
    | Raise e => Raise e
    end.
Proof.
  unfold format_params, format_params_in, Decimal_round.
  rewrite Decimal_from_float_opp, quantize_down_negate.
  destruct (quantize utils_context (Decimal_from_float value) (- digit)) as [r|e];
    [|reflexivity].
  simpl. unfold mret, PyResult_ret. now rewrite Decimal_to_float_negate.
Qed.

End UtilsMoreFacts.

(** ** The amplitude and DRAG sweeps *)

Module RoughSweepsFacts.
Import FloatOrder Calibrations Utils UtilsFacts RoughSweeps.

(** *** The loop over the sweep values *)

Lemma for_each_cons {S A : Type} (body : S -> A -> PyResult S) x xs st :
  for_each body (x :: xs) st = body st x ≫= for_each body xs.
Proof. reflexivity. Qed.

Lemma sweep_step_returns {T : Type} (t : T) n acc value x :
  format_params_default value = Return x ->
  sweep_step t n acc value = Return (acc ++ [bound t n x]).
Proof. unfold sweep_step. intros ->. reflexivity. Qed.

Lemma sweep_step_inv {T : Type} (t : T) n acc value acc' :
  sweep_step t n acc value = Return acc' ->
  exists x, format_params_default value = Return x /\ acc' = acc ++ [bound t n x].
Proof.
  unfold sweep_step. destruct (format_params_default value) as [x|e];
    [|discriminate].
  intros [= <-]. eauto.
Qed.

Lemma sweep_formatted {T : Type} (t : T) n values xs :
  formatted values xs ->
  forall acc,
    for_each (sweep_step t n) values acc = Return (acc ++ map (bound t n) xs).
Proof.
  induction 1 as [|value x values xs Hx _ IH]; intros acc.
  - simpl. now rewrite app_nil_r.
  - rewrite for_each_cons, (sweep_step_returns t n acc value x Hx).
    cbn [mbind PyResult_bind]. rewrite IH, <- app_assoc. reflexivity.
Qed.

Lemma sweep_returns {T : Type} (t : T) n values : forall acc circs,
  for_each (sweep_step t n) values acc = Return circs ->
  exists xs, formatted values xs /\ circs = acc ++ map (bound t n) xs.
Proof.
  induction values as [|value values IH]; intros acc circs Hrun.
  - injection Hrun as <-. exists []. split; [constructor|].
    now rewrite app_nil_r.
  - rewrite for_each_cons in Hrun.
    destruct (sweep_step t n acc value) as [acc'|e] eqn:Hstep; [|discriminate].
    cbn [mbind PyResult_bind] in Hrun.
    destruct (sweep_step_inv _ _ _ _ _ Hstep) as (x & Hx & ->).
    destruct (IH _ _ Hrun) as (xs & Hxs & ->).
    exists (x :: xs). split; [now constructor|].
    now rewrite <- app_assoc.
Qed.

(** The default call cuts a finite value below 10^25 after three places. *)
Lemma format_params_default_cuts value :
  float_finite value = true ->
  (float_mag value < Dmag 1 25)%Q ->
  exists c',
    format_params_default value
      = Return (Decimal_to_float (Dfinite (float_sign value) c' (- 3))) /\
    (Dmag c' (- 3) <= float_mag value)%Q /\
    (float_mag value < Dmag (c' + 1) (- 3))%Q.
Proof.
  intros Hfin Hmag.
  destruct (Decimal_from_float_finite value Hfin) as (c & d & Hdec & Hexact).
  rewrite <- Hexact in Hmag.
  destruct (quantize_truncates (float_sign value) c d 3 ltac:(lia) Hmag)
    as (c' & Hq & Hle & Hlt).
  exists c'. rewrite <- Hexact. split; [|split; assumption].
  unfold format_params_default, format_params, format_params_in, Decimal_round.
  rewrite Hdec, Hq. reflexivity.
Qed.

Lemma formatted_cuts values :
  Forall (fun value => float_finite value = true /\
                       (float_mag value < Dmag 1 25)%Q) values ->
  exists xs, formatted values xs /\ Forall2 cut_of values xs.
Proof.
  induction 1 as [|value values [Hfin Hmag] _ (xs & Hfmt & Hcut)].
  - exists []. split; constructor.
  - destruct (format_params_default_cuts value Hfin Hmag) as (c' & Hx & Hle & Hlt).
    exists (Decimal_to_float (Dfinite (float_sign value) c' (- 3)) :: xs).
    split; constructor; try assumption.
    exists c'. auto.
Qed.

Section Sweeps.
Context {Schedule Sequence : Type}.
Variable linspace : float -> float -> Z -> PyResult (list float).
Variable rabi_sched : PyResult Schedule.
Variable _sequence_under_test : Z -> PyResult Sequence.

(** When the schedule of the amplitude sweep can be built and every
    sweep value is finite and below 10^25 in magnitude,
    [RoughEFAmplitudeCal.circuits] returns one circuit per sweep value,
    in the order of the sweep; each is the template with the amplitude
    bound to the circuit's [xval], and that [xval] is the float nearest to
    the sweep value cut after three decimal places: it is not the sweep
    value itself but lies less than 0.001 from it, toward zero. *)
Theorem amp_circuits_follow_the_sweep (opt : AmpOptions) sched amps :
  rabi_sched = Return sched ->
  linspace (amp_min opt) (amp_max opt) (amp_num opt) = Return amps ->
  Forall (fun amp => float_finite amp = true /\
                     (float_mag amp < Dmag 1 25)%Q) amps ->
  exists circs,
    amp_circuits linspace rabi_sched opt = Return circs /\
    length circs = length amps /\
    forall j amp, amps !! j = Some amp ->
      exists c',
        circs !! j
          = Some (bound sched None
                    (Decimal_to_float (Dfinite (float_sign amp) c' (- 3)))) /\
        (Dmag c' (- 3) <= float_mag amp)%Q /\
        (float_mag amp < Dmag (c' + 1) (- 3))%Q.
Proof.
  intros Hsched Hlin Hamps.
  destruct (formatted_cuts amps Hamps) as (xs & Hfmt & Hcut).
  exists (map (bound sched None) xs). split; [|split].
  - unfold amp_circuits. rewrite Hsched, Hlin. simpl.
    apply (sweep_formatted sched None amps xs Hfmt []).
  - rewrite length_map. symmetry. exact (Forall2_length _ _ _ Hcut).
  - intros j amp Hj.
    destruct (Forall2_lookup_l _ _ _ _ _ Hcut Hj) as (x & Hx & c' & -> & Hle & Hlt).
    exists c'. rewrite list_lookup_fmap, Hx. auto.
Qed.

(** *** The nested loop of the DRAG sweep *)

Lemma drag_step_returns (opt : DragOptions) betas xs nrep s acc :
  linspace (beta_min opt) (beta_max opt) (beta_num opt) = Return betas ->
  formatted betas xs ->
  _sequence_under_test nrep = Return s ->
  drag_step linspace _sequence_under_test opt acc nrep
  = Return (acc ++ map (bound s (Some nrep)) xs).
Proof.
  intros Hlin Hfmt Hs. unfold drag_step. rewrite Hs, Hlin.
  cbn [mbind PyResult_bind]. now apply sweep_formatted.
Qed.

Lemma drag_step_inv (opt : DragOptions) nrep acc acc' :
  drag_step linspace _sequence_under_test opt acc nrep = Return acc' ->
  (exists s, _sequence_under_test nrep = Return s) /\
  exists betas xs,
    linspace (beta_min opt) (beta_max opt) (beta_num opt) = Return betas /\
    formatted betas xs.
Proof.
  unfold drag_step.
  destruct (_sequence_under_test nrep) as [s|e]; [|discriminate].
  destruct (linspace _ _ _) as [betas|e]; [|discriminate].
  cbn [mbind PyResult_bind]. intros Hsweep.
  destruct (sweep_returns _ _ _ _ _ Hsweep) as (xs & Hxs & _).
  split; [eexists; reflexivity|].
  exists betas, xs. split; [reflexivity | assumption].
Qed.

Lemma drag_loop_layout (opt : DragOptions) betas xs :
  linspace (beta_min opt) (beta_max opt) (beta_num opt) = Return betas ->
  formatted betas xs ->
  forall counts seqs,
    Forall2 (fun nrep s => _sequence_under_test nrep = Return s) counts seqs ->
    forall acc,
    exists rest,
      for_each (drag_step linspace _sequence_under_test opt) counts acc
        = Return (acc ++ rest) /\
      length rest = (length counts * length betas)%nat /\
      forall i j nrep s x,
        counts !! i = Some nrep -> seqs !! i = Some s -> xs !! j = Some x ->
        rest !! (i * length betas + j)%nat = Some (bound s (Some nrep) x).
Proof.
  intros Hlin Hfmt.
  pose proof (Forall2_length _ _ _ Hfmt) as Hlen.
  induction 1 as [|nrep s counts seqs Hs _ IH]; intros acc.
  - exists []. simpl. rewrite app_nil_r. split; [reflexivity|].
    split; [reflexivity|]. intros i j nrep s x Hi. discriminate.
  - destruct (IH (acc ++ map (bound s (Some nrep)) xs)) as (rest & Hrun & Hrest & Hlk).
    exists (map (bound s (Some nrep)) xs ++ rest). split; [|split].
    + rewrite for_each_cons,
        (drag_step_returns opt betas xs nrep s acc Hlin Hfmt Hs).
      cbn [mbind PyResult_bind]. rewrite Hrun, <- app_assoc. reflexivity.
    + rewrite length_app, length_map, Hrest. simpl. lia.
    + intros [|i] j nrep' s' x Hi Hsi Hj.
      * simpl in Hi, Hsi. injection Hi as <-. injection Hsi as <-.
        simpl. rewrite lookup_app_l.
        -- rewrite list_lookup_fmap, Hj. reflexivity.
        -- rewrite length_map. now apply lookup_lt_Some in Hj.
      * simpl in Hi, Hsi. rewrite lookup_app_r; rewrite length_map; [|lia].
        replace (S i * length betas + j - length xs)%nat
          with (i * length betas + j)%nat by lia.
        eauto.
Qed.

(** When every sequence under test can be built and every sweep
    value is accepted by [format_params], [RoughEFDragCal.circuits]
    returns [len(reps) * len(betas)] circuits, grouped by repetition
    count in the order of [reps] and, within a group, in the order of the
    sweep: the circuit at position [i * len(betas) + j] is the sequence
    built for [reps[i]] with β bound to the formatted [betas[j]], and its
    metadata hold that same formatted value and [reps[i]]. *)
Theorem drag_circuits_layout (opt : DragOptions) betas xs seqs :
  linspace (beta_min opt) (beta_max opt) (beta_num opt) = Return betas ->
  formatted betas xs ->
  Forall2 (fun nrep s => _sequence_under_test nrep = Return s) (reps opt) seqs ->
  exists circs,
    drag_circuits linspace _sequence_under_test opt = Return circs /\
    length circs = (length (reps opt) * length betas)%nat /\
    forall i j nrep s x,
      reps opt !! i = Some nrep -> seqs !! i = Some s -> xs !! j = Some x ->
      circs !! (i * length betas + j)%nat = Some (bound s (Some nrep) x).
Proof.
  intros Hlin Hfmt Hseqs.
  destruct (drag_loop_layout opt betas xs Hlin Hfmt (reps opt) seqs Hseqs [])
    as (rest & Hrun & Hlen & Hlk).
  exists rest. auto.
Qed.

Lemma drag_loop_returns (opt : DragOptions) : forall counts acc circs,
  for_each (drag_step linspace _sequence_under_test opt) counts acc = Return circs ->
  counts = [] \/
  (Forall (fun nrep => exists s, _sequence_under_test nrep = Return s) counts /\
   exists betas xs,
     linspace (beta_min opt) (beta_max opt) (beta_num opt) = Return betas /\
     formatted betas xs).
Proof.
  induction counts as [|nrep counts IH]; intros acc circs Hrun; [now left|].
  right. rewrite for_each_cons in Hrun.
  destruct (drag_step _ _ opt acc nrep) as [acc'|e] eqn:Hstep; [|discriminate].
  cbn [mbind PyResult_bind] in Hrun.
  destruct (drag_step_inv _ _ _ _ Hstep) as [Hs Hsweep].
  split; [|exact Hsweep].
  constructor; [exact Hs|].
  destruct (IH _ _ Hrun) as [->|[Hall _]]; [constructor | exact Hall].
Qed.

(** [RoughEFDragCal.circuits] returns a list exactly when there is
    no repetition count at all, or every sequence under test can be
    built, [np.linspace] returns and [format_params] accepts every sweep
    value. One rejected sweep value, or one sequence that cannot be
    built, makes the whole call raise: no shorter list is returned. *)
Theorem drag_circuits_return_iff (opt : DragOptions) :
  (exists circs, drag_circuits linspace _sequence_under_test opt = Return circs)
  <->
  reps opt = [] \/
  (Forall (fun nrep => exists s, _sequence_under_test nrep = Return s) (reps opt) /\
   exists betas xs,
     linspace (beta_min opt) (beta_max opt) (beta_num opt) = Return betas /\
     formatted betas xs).
Proof.
  split.
  - intros [circs Hrun]. exact (drag_loop_returns opt _ _ _ Hrun).
  - unfold drag_circuits. intros [->|(Hall & betas & xs & Hlin & Hfmt)].
    + exists []. reflexivity.
    + assert (Hseqs : exists seqs,
                Forall2 (fun nrep s => _sequence_under_test nrep = Return s)
                        (reps opt) seqs).
      { clear -Hall. induction Hall as [|nrep reps [s Hs] _ [seqs IH]].
        - exists []. constructor.
        - exists (s :: seqs). now constructor. }
      destruct Hseqs as [seqs Hseqs].
      destruct (drag_loop_layout opt betas xs Hlin Hfmt (reps opt) seqs Hseqs [])
        as (rest & Hrun & _).
      exists rest. exact Hrun.
Qed.

End Sweeps.

(** *** Worked values *)

Example default_amp_sweep_ends :
  (amps ← np_linspace (-0.5)%float 0.5%float 51; Return (amps !! 0%nat, amps !! 50%nat))
  = Return (Some (-0.5)%float, Some 0.5%float).
Proof. vm_compute. reflexivity. Qed.

(** With the default options the second sweep value is the float nearest to
    -4.8, which lies just above -4.8, and is cut to -4.799. *)
Example default_drag_sweep_second_value :
  default_betas !! 1%nat = Some (-4.8)%float /\
  default_beta_xvals !! 1%nat = Some (-4.799)%float.
Proof. vm_compute. split; reflexivity. Qed.

Example unbounded_sweep_raises :
  drag_circuits np_linspace (example_sequence_under_test RoughEFXDragCal)
    unbounded_drag_options
  = Raise (InvalidOperation "quantize with one INF").
Proof. vm_compute. reflexivity. Qed.

Lemma amp_circuits_follow_the_sweep_witness :
  exists circs,
    amp_circuits np_linspace example_rabi_sched default_amp_options = Return circs /\
    length circs = length default_amps /\
    forall j amp, default_amps !! j = Some amp ->
      exists c',
        circs !! j
          = Some (bound "rabi" None
                    (Decimal_to_float (Dfinite (float_sign amp) c' (- 3)))) /\
        (Dmag c' (- 3) <= float_mag amp)%Q /\
        (float_mag amp < Dmag (c' + 1) (- 3))%Q.
Proof.
  apply (amp_circuits_follow_the_sweep np_linspace example_rabi_sched
           default_amp_options "rabi" default_amps).
  - reflexivity.
  - vm_compute. reflexivity.
  - let l := eval vm_compute in default_amps in change default_amps with l.
    repeat (constructor; [split; vm_compute; reflexivity|]). constructor.
Defined.

Lemma drag_circuits_layout_witness :
  exists circs,
    drag_circuits np_linspace (example_sequence_under_test RoughEFXDragCal)
      default_drag_options = Return circs /\
    length circs = (length (reps default_drag_options) * length default_betas)%nat /\
    forall i j nrep s x,
      reps default_drag_options !! i = Some nrep ->
      default_sequences !! i = Some s ->
      default_beta_xvals !! j = Some x ->
      circs !! (i * length default_betas + j)%nat = Some (bound s (Some nrep) x).
Proof.
  apply (drag_circuits_layout np_linspace
           (example_sequence_under_test RoughEFXDragCal) default_drag_options
           default_betas default_beta_xvals default_sequences).
  - vm_compute. reflexivity.
  - unfold formatted.
    let l := eval vm_compute in default_betas in change default_betas with l.
    let l := eval vm_compute in default_beta_xvals in
      change default_beta_xvals with l.
    repeat (constructor; [vm_compute; reflexivity|]). constructor.
  - let l := eval vm_compute in default_sequences in
      change default_sequences with l.
    repeat (constructor; [vm_compute; reflexivity|]). constructor.
Defined.

End RoughSweepsFacts.

(** ** The initial guesses of the two-peak fit *)

Module DoublePeakFacts.
Import FloatOrder Calibrations DoublePeak.

Lemma item_lookup {A : Type} (a : list A) i v :
  a !! i = Some v -> item a i = Return v.
Proof. unfold item. now intros ->. Qed.

Lemma key_inj name : Inj (=) (=) (key name).
Proof.
  intros i j. unfold key. induction name as [|c name IH]; simpl.
  - apply (inj pretty).
  - intros [= H]. auto.
Qed.

(** The three families of keys are disjoint. *)
Lemma key_a_kappa i j : key "a" i <> key "kappa" j.
Proof. discriminate. Qed.
Lemma key_a_x i j : key "a" i <> key "x" j.
Proof. discriminate. Qed.
Lemma key_kappa_x i j : key "kappa" i <> key "x" j.
Proof. discriminate. Qed.

Ltac key_cases :=
  repeat match goal with
         | |- context [decide (key ?n ?i = key ?n ?j)] =>
             let H := fresh "Hkey" in
             destruct (decide (key n i = key n j)) as [H|H];
             [apply (key_inj n) in H; try subst | ]
         | |- context [decide (?a = ?b)] =>
             let H := fresh "Hkey" in
             destruct (decide (a = b)) as [H|H];
             [first [ now apply key_a_kappa in H
                    | now apply key_a_x in H
                    | now apply key_kappa_x in H
                    | symmetry in H;
                      first [ now apply key_a_kappa in H
                            | now apply key_a_x in H
                            | now apply key_kappa_x in H ] ] | clear H ]
         end.

(** The entries written for the peak at position [ind]. *)
Lemma guess_step_returns found x offset from_higher opt peak_ind ind h w p xv :
  from_higher !! Z.to_nat peak_ind = Some ind ->
  peak_heights found !! ind = Some h ->
  widths found !! ind = Some w ->
  peaks found !! ind = Some p ->
  x !! p = Some xv ->
  guess_step found x offset from_higher opt peak_ind
  = Return (<[ key "x" ind := xv ]>
              (<[ key "kappa" ind := w ]>
                 (<[ key "a" ind := (h - offset)%float ]> opt))).
Proof.
  intros Hind Hh Hw Hp Hx. unfold guess_step.
  rewrite (item_lookup _ _ _ Hind). cbn [mbind PyResult_bind].
  rewrite (item_lookup _ _ _ Hh). cbn [mbind PyResult_bind].
  rewrite (item_lookup _ _ _ Hw). cbn [mbind PyResult_bind].
  rewrite (item_lookup _ _ _ Hp). cbn [mbind PyResult_bind].
  rewrite (item_lookup _ _ _ Hx). reflexivity.
Qed.

Section FitGuesses.
Variable argsort : list float -> list nat.

(** When [find_peaks] has found [n >= 2] peaks and [np.argsort] has sorted
    their heights, the guesses are made for the two highest peaks, [i] the
    highest and [j] the next, and each guess is stored under the name that
    carries the position of its peak among the found ones, not its rank:
    [a<k>], [kappa<k>] and [x<k>] receive a guess exactly when the [k]-th
    found peak is one of the two highest. With more than two peaks found,
    the parameters [a1], [kappa1], [x1] of the model receive no guess
    unless the second found peak is among the two highest, and names that
    the model does not have are used instead. *)
Theorem guesses_are_named_by_position found x offset n :
  length (peaks found) = n ->
  length (peak_heights found) = n ->
  length (widths found) = n ->
  (2 <= n)%nat ->
  Forall (fun p => (p < length x)%nat) (peaks found) ->
  argsort (peak_heights found) ≡ₚ seq 0 n ->
  sorted_along (peak_heights found) (argsort (peak_heights found)) ->
  exists i j hi hj opt,
    peak_guesses argsort found x offset = Return (GuessesFor opt) /\
    i <> j /\
    peak_heights found !! i = Some hi /\
    peak_heights found !! j = Some hj /\
    (hj <=? hi)%float = true /\
    (forall k hk, k <> i -> k <> j -> peak_heights found !! k = Some hk ->
       (hk <=? hj)%float = true) /\
    forall k,
      opt !! key "a" k
        = (if decide (k = i \/ k = j)
           then (fun h => (h - offset)%float) <$> peak_heights found !! k
           else None) /\
      opt !! key "kappa" k
        = (if decide (k = i \/ k = j) then widths found !! k else None) /\
      opt !! key "x" k
        = (if decide (k = i \/ k = j)
           then peaks found !! k ≫= (fun p => x !! p)
           else None).
Proof.
  intros Hpeaks Hheights Hwidths Hn Hx Hperm Hsorted.
  set (order := argsort (peak_heights found)) in *.
  assert (Hlen : length order = n).
  { rewrite (Permutation_length Hperm). apply length_seq. }
  assert (Hnodup : NoDup order).
  { rewrite Hperm. apply NoDup_seq. }
  destruct (lookup_lt_is_Some_2 order (n - 1)) as [i Hi]; [lia|].
  destruct (lookup_lt_is_Some_2 order (n - 2)) as [j Hj]; [lia|].
  assert (Hij : i <> j).
  { intros ->. pose proof (NoDup_lookup _ _ _ _ Hnodup Hi Hj). lia. }
  destruct (Hsorted (n - 2)%nat (n - 1)%nat j i ltac:(lia) Hj Hi)
    as (hj & hi & Hhj & Hhi & Hle).
  assert (Hin : forall a, a ∈ order -> (a < n)%nat).
  { intros a Ha. rewrite Hperm in Ha. apply elem_of_seq in Ha. lia. }
  assert (Hilt : (i < n)%nat) by (apply Hin; eapply list_elem_of_lookup_2; eauto).
  assert (Hjlt : (j < n)%nat) by (apply Hin; eapply list_elem_of_lookup_2; eauto).
  destruct (lookup_lt_is_Some_2 (widths found) i) as [wi Hwi]; [lia|].
  destruct (lookup_lt_is_Some_2 (widths found) j) as [wj Hwj]; [lia|].
  destruct (lookup_lt_is_Some_2 (peaks found) i) as [pi Hpi]; [lia|].
  destruct (lookup_lt_is_Some_2 (peaks found) j) as [pj Hpj]; [lia|].
  destruct (lookup_lt_is_Some_2 x pi) as [xi Hxi].
  { exact (proj1 (Forall_lookup _ _) Hx _ _ Hpi). }
  destruct (lookup_lt_is_Some_2 x pj) as [xj Hxj].
  { exact (proj1 (Forall_lookup _ _) Hx _ _ Hpj). }
  assert (H0 : reverse order !! Z.to_nat 0 = Some i).
  { rewrite reverse_lookup by (simpl; lia). rewrite Hlen.
    replace (n - S (Z.to_nat 0))%nat with (n - 1)%nat by (simpl; lia). exact Hi. }
  assert (H1 : reverse order !! Z.to_nat 1 = Some j).
  { rewrite reverse_lookup by (simpl; lia). rewrite Hlen.
    replace (n - S (Z.to_nat 1))%nat with (n - 2)%nat by (simpl; lia). exact Hj. }
  exists i, j, hi, hj.
  eexists. split; [|split; [exact Hij|split; [exact Hhi|split; [exact Hhj|
                    split; [exact Hle|split]]]]].
  - unfold peak_guesses. fold order.
    replace (length (peaks found) <? 2)%nat with false
      by (symmetry; apply Nat.ltb_ge; lia).
    change (range 2) with [0; 1]. cbn [for_each].
    rewrite (guess_step_returns found x offset _ _ 0 i hi wi pi xi H0 Hhi Hwi Hpi Hxi).
    cbn [mbind PyResult_bind].
    rewrite (guess_step_returns found x offset _ _ 1 j hj wj pj xj H1 Hhj Hwj Hpj Hxj).
    reflexivity.
  - intros k hk Hki Hkj Hk.
    assert (Hkn : (k < n)%nat).
    { rewrite <- Hheights. apply lookup_lt_is_Some. eauto. }
    assert (Hkin : k ∈ order).
    { rewrite Hperm. apply elem_of_seq. lia. }
    apply list_elem_of_lookup in Hkin as [pos Hpos].
    assert (Hposn : (pos < n)%nat).
    { rewrite <- Hlen. apply lookup_lt_is_Some. eauto. }
    assert (Hpos1 : pos <> (n - 1)%nat).
    { intros ->. congruence. }
    assert (Hpos2 : pos <> (n - 2)%nat).
    { intros ->. congruence. }
    destruct (Hsorted pos (n - 2)%nat k j ltac:(lia) Hpos Hj)
      as (hk' & hj' & Hhk' & Hhj' & Hle').
    congruence.
  - intros k. rewrite !lookup_insert, !lookup_empty.
    destruct (decide (k = i \/ k = j)) as [[->| ->]|Hk]; key_cases;
      rewrite ?Hhi, ?Hhj, ?Hwi, ?Hwj, ?Hpi, ?Hpj; simpl;
      rewrite ?Hxi, ?Hxj; try (repeat split; reflexivity);
      try congruence; try (exfalso; apply Hk; auto).
Qed.

End FitGuesses.

(** *** Worked values *)

(** With three peaks found, the lowest of them the second, the guesses go
    to the names of the first and the third: [x2] is used, which the model
    does not have, and [x1] receives no guess. *)
Example third_peak_takes_the_name_x2 :
  exists opt,
    three_peak_guesses = Return (GuessesFor opt) /\
    opt !! "x0" = Some (-3)%float /\
    opt !! "x1" = None /\
    opt !! "x2" = Some 3%float.
Proof. eexists. split; [vm_compute; reflexivity|]. vm_compute. auto. Qed.

Lemma guesses_are_named_by_position_witness :
  exists i j hi hj opt,
    three_peak_guesses = Return (GuessesFor opt) /\
    i <> j /\
    peak_heights three_peaks !! i = Some hi /\
    peak_heights three_peaks !! j = Some hj /\
    (hj <=? hi)%float = true /\
    (forall k hk, k <> i -> k <> j -> peak_heights three_peaks !! k = Some hk ->
       (hk <=? hj)%float = true) /\
    forall k,
      opt !! key "a" k
        = (if decide (k = i \/ k = j)
           then (fun h => (h - 0.1)%float) <$> peak_heights three_peaks !! k
           else None) /\
      opt !! key "kappa" k
        = (if decide (k = i \/ k = j) then widths three_peaks !! k else None) /\
      opt !! key "x" k
        = (if decide (k = i \/ k = j)
           then peaks three_peaks !! k ≫= (fun p => detunings !! p)
           else None).
Proof.
  apply (guesses_are_named_by_position np_argsort three_peaks detunings
           0.1%float 3).
  - reflexivity.
  - reflexivity.
  - reflexivity.
  - lia.
  - repeat constructor; simpl; lia.
  - apply (bool_decide_unpack _). vm_compute. reflexivity.
  - intros k l a b Hkl Hk Hl.
    change (np_argsort (peak_heights three_peaks)) with [1; 2; 0]%nat in Hk, Hl.
    destruct k as [|[|[|k]]]; destruct l as [|[|[|l]]];
      try lia; try discriminate;
      injection Hk as <-; injection Hl as <-;
      eexists _, _; (split; [reflexivity|split; [reflexivity|]]);
      vm_compute; reflexivity.
Defined.

End DoublePeakFacts.
